(** * Block scanner and token-name lookup of the Artion API server

    A shallow embedding of [internal/svc/blk_scanner.go] and of the
    [Token] / [MustTokenName] pair of [internal/repository/token.go].

    The scanner is one goroutine looping over a [select]; everything it
    reads from the outside (timers, channels, the repository) is an input
    of the iteration, so a run is a function of the list of inputs of its
    iterations.  [uint64] fields are integers with the wrap-around of the
    Go arithmetic written out. *)

From Stdlib Require Import ZArith List Bool Lia String.
Import ListNotations.
Local Open Scope Z_scope.

(** ** Results of the collaborators *)

(** A Go pair [(value, err)] with [err] either [nil] or an error message. *)
Inductive result (A : Type) : Type :=
| Ok (a : A)
| Err (msg : string).
Arguments Ok {A} a.
Arguments Err {A} msg.

(** ** 64-bit unsigned arithmetic *)

Definition wrap64 (z : Z) : Z := z mod 2 ^ 64.

Definition uint64 (z : Z) : Prop := 0 <= z < 2 ^ 64.

Definition maxUint64 : Z := 2 ^ 64 - 1.

Module svc.

(** ** Constants and data of [blk_scanner.go] *)

(** The [iota] constants [blkIsScanning = 0] and [blkIsIdling = 1]; the
    [state] field only ever holds one of the two. *)
Inductive ScannerState : Type :=
| blkIsScanning
| blkIsIdling.

Definition ScannerState_eqb (a b : ScannerState) : bool :=
  match a, b with
  | blkIsScanning, blkIsScanning => true
  | blkIsIdling, blkIsIdling => true
  | _, _ => false
  end.

Definition defStartingBlockNumber : Z := 16000000.

Definition blkScannerHysteresis : Z := 10.

(** Of [eth.Header] the scanner and its claims only use the height. *)
Record Header : Type := mkHeader { Number : Z }.

(** The scanner.  Channels are kept by what has gone through them:
    - [sigStop]: the one-slot buffer, [true] when a stop signal is pending;
    - [outBlocks]: the headers sent so far, oldest first;
    - [outStateChange]: the state changes a listener received, oldest first.
    Two ghost fields record calls to collaborators:
    - [pulled]: the heights [PullHeader] was asked for, oldest first;
    - [mgrClosed]: how often [mgr.closed] was called for this scanner. *)
Record blkScanner : Type := mkScanner {
  state : ScannerState;
  current : Z;
  target : Z;
  sigStop : bool;
  outBlocks : list Header;
  outStateChange : list ScannerState;
  pulled : list Z;
  mgrClosed : nat
}.

Definition set_state (v : ScannerState) (bs : blkScanner) : blkScanner :=
  mkScanner v (current bs) (target bs) (sigStop bs) (outBlocks bs)
            (outStateChange bs) (pulled bs) (mgrClosed bs).

Definition set_current (v : Z) (bs : blkScanner) : blkScanner :=
  mkScanner (state bs) v (target bs) (sigStop bs) (outBlocks bs)
            (outStateChange bs) (pulled bs) (mgrClosed bs).

Definition set_target (v : Z) (bs : blkScanner) : blkScanner :=
  mkScanner (state bs) (current bs) v (sigStop bs) (outBlocks bs)
            (outStateChange bs) (pulled bs) (mgrClosed bs).

Definition set_sigStop (v : bool) (bs : blkScanner) : blkScanner :=
  mkScanner (state bs) (current bs) (target bs) v (outBlocks bs)
            (outStateChange bs) (pulled bs) (mgrClosed bs).

Definition send_outBlocks (hdr : Header) (bs : blkScanner) : blkScanner :=
  mkScanner (state bs) (current bs) (target bs) (sigStop bs)
            (outBlocks bs ++ [hdr]) (outStateChange bs) (pulled bs)
            (mgrClosed bs).

Definition log_pull (h : Z) (bs : blkScanner) : blkScanner :=
  mkScanner (state bs) (current bs) (target bs) (sigStop bs) (outBlocks bs)
            (outStateChange bs) (pulled bs ++ [h]) (mgrClosed bs).

Definition mgr_closed (bs : blkScanner) : blkScanner :=
  mkScanner (state bs) (current bs) (target bs) (sigStop bs) (outBlocks bs)
            (outStateChange bs) (pulled bs) (S (mgrClosed bs)).

(** [select { case bs.outStateChange <- bs.state: default: }]: the channel
    is unbuffered, so the value is delivered only when a listener is
    receiving at that moment. *)
Definition notify (listening : bool) (bs : blkScanner) : blkScanner :=
  if listening
  then mkScanner (state bs) (current bs) (target bs) (sigStop bs)
                 (outBlocks bs) (outStateChange bs ++ [state bs]) (pulled bs)
                 (mgrClosed bs)
  else bs.

(** ** Initialization *)

(** [newBlkScanner]: zero values for [state], [current] and [target]. *)
Definition newBlkScanner : blkScanner :=
  mkScanner blkIsScanning 0 0 false [] [] [] 0.

(** [top], given what [CurrentHead] returned. *)
Definition top (head : result Z) : Z :=
  match head with
  | Err _ => 0
  | Ok cur => cur
  end.

(** [start], given what [LastSeenBlockNumber] returned. *)
Definition start (lastSeen : result Z) : Z :=
  match lastSeen with
  | Err _ => 0
  | Ok lnb => if lnb =? 0 then defStartingBlockNumber else lnb
  end.

(** [init]: [bs.current, bs.target = bs.start(), bs.top()]. *)
Definition init (lastSeen head : result Z) (bs : blkScanner) : blkScanner :=
  set_target (top head) (set_current (start lastSeen) bs).

(** The scanner as [run] finds it. *)
Definition initial (lastSeen head : result Z) : blkScanner :=
  init lastSeen head newBlkScanner.

(** ** One iteration of [run] *)

(** What the loop's [select] does in an iteration.  Go takes one of the
    ready cases, and [default] only when none is ready. *)
Inductive Event : Type :=
| EvStop                         (* a stop signal is received *)
| EvTgTick (head : result Z)     (* [tgTick] fired; [CurrentHead]'s answer *)
| EvLogTick                      (* [logTick] fired *)
| EvObserved (bid : Z)           (* a height arrived on [inObservedBlocks] *)
| EvNone.                        (* no timer and no observed block is ready *)

(** How a blocking [select] of [scanNext] ends: by the stop signal, or by
    its other case (the 5 s timeout, the send on [outBlocks]). *)
Inductive Race : Type :=
| RaceStop
| RaceOther.

(** Everything one iteration reads from outside the scanner. *)
Record Input : Type := mkInput {
  ev : Event;
  pullHeader : Z -> result Header;   (* [PullHeader] during this iteration *)
  race : Race;
  head : result Z;                   (* [CurrentHead] for [checkTarget] *)
  listening : bool                   (* a receiver waits on [outStateChange] *)
}.

(** [scanNext].  After a failed fetch the stop signal, if taken, is put
    back: [sigStop] is then full whether it was pending before or arrived
    during the wait; on a timeout nothing changes. *)
Definition scanNext (i : Input) (bs : blkScanner) : blkScanner :=
  if ScannerState_eqb (state bs) blkIsScanning && (current bs <? target bs)
  then
    let bs := log_pull (current bs) bs in
    match pullHeader i (current bs) with
    | Err _ =>
        match race i with
        | RaceStop => set_sigStop true bs
        | RaceOther => bs
        end
    | Ok hdr =>
        match race i with
        | RaceOther => set_current (wrap64 (current bs + 1)) (send_outBlocks hdr bs)
        | RaceStop => set_sigStop true bs
        end
    end
  else bs.

(** [checkTarget]; [diff] is a [uint64]. *)
Definition checkTarget (i : Input) (bs : blkScanner) : blkScanner :=
  if ScannerState_eqb (state bs) blkIsScanning && (current bs >? target bs)
  then
    let bs := set_target (top (head i)) bs in
    let diff := wrap64 (target bs - current bs) in
    if (diff >=? 0) && (diff <? blkScannerHysteresis)
    then notify (listening i) (set_state blkIsIdling bs)
    else bs
  else bs.

(** [checkIdle]. *)
Definition checkIdle (i : Input) (bs : blkScanner) : blkScanner :=
  if negb (ScannerState_eqb (state bs) blkIsIdling)
  then bs
  else
    let diff := wrap64 (target bs - current bs) in
    if diff >? blkScannerHysteresis
    then notify (listening i) (set_state blkIsScanning bs)
    else bs.

(** The case of the loop's [select] that receives from
    [inObservedBlocks]. *)
Definition observe (bid : Z) (bs : blkScanner) : blkScanner :=
  if ScannerState_eqb (state bs) blkIsIdling && (bid >? current bs)
  then set_current bid bs
  else bs.

(** The loop's [select]: [None] when it takes the stop case and [run]
    returns.  With nothing else ready ([EvNone]) a pending stop signal is
    the one ready case; without one the [default] case runs. *)
Definition selectEvent (i : Input) (bs : blkScanner) : option blkScanner :=
  match ev i with
  | EvStop => None
  | EvTgTick h => Some (set_target (top h) bs)
  | EvLogTick => Some bs
  | EvObserved bid => Some (observe bid bs)
  | EvNone => if sigStop bs then None else Some bs
  end.

(** The three calls after the [select]. *)
Definition afterSelect (i : Input) (bs : blkScanner) : blkScanner :=
  checkIdle i (checkTarget i (scanNext i bs)).

(** One pass through the body of the [for]: [None] when [run] returns. *)
Definition iteration (i : Input) (bs : blkScanner) : option blkScanner :=
  match selectEvent i bs with
  | None => None
  | Some bs' => Some (afterSelect i bs')
  end.

(** What [run] has done after the given iterations. *)
Inductive RunState : Type :=
| Looping (bs : blkScanner)     (* still in the [for] *)
| Returned (bs : blkScanner).   (* [run] returned; the deferred call ran *)

(** [run]: the stop case empties [sigStop], and the deferred function
    calls [mgr.closed] on the way out. *)
Fixpoint run (ins : list Input) (bs : blkScanner) : RunState :=
  match ins with
  | [] => Looping bs
  | i :: rest =>
      match iteration i bs with
      | None => Returned (mgr_closed (set_sigStop false bs))
      | Some bs' => run rest bs'
      end
  end.

Definition final (r : RunState) : blkScanner :=
  match r with
  | Looping bs => bs
  | Returned bs => bs
  end.

(** [close]: the owner's stop signal into the one-slot buffer. *)
Definition close (bs : blkScanner) : blkScanner := set_sigStop true bs.

(** The heights of the headers sent on [outBlocks]. *)
Definition emitted (bs : blkScanner) : list Z := map Number (outBlocks bs).

End svc.

Module types.

(** Of [types.Token] the two functions below only read [Name]. *)
Record Token : Type := mkToken { Name : string }.

End types.

Module repository.

(** ** [Token] and [MustTokenName] of [token.go] *)

(** How the call [p.db.GetToken(contract, tokenId)] ends: with the Go pair
    [(t, e)], [t] a pointer that may be [nil], or in a panic. *)
Inductive GetTokenCall : Type :=
| GetTokenReturns (t : option types.Token) (e : option string)
| GetTokenPanics.

(** How a call of a Go function ends. *)
Inductive outcome (A : Type) : Type :=
| Returns (a : A)
| Panics.
Arguments Returns {A} a.
Arguments Panics {A}.

(** The function handed to [p.callGroup.Do]: its deferred [recover] turns a
    panic of [GetToken] into the zero results [(nil, nil)]. *)
Definition loadToken (db : GetTokenCall)
  : option types.Token * option string :=
  match db with
  | GetTokenPanics => (None, None)
  | GetTokenReturns t e =>
      match e with
      | Some msg => (None, Some msg)
      | None =>
          match t with
          | None => (None, None)
          | Some tok => (Some tok, None)
          end
      end
  end.

(** [Token]: the pair of a token pointer and an error it returns. *)
Definition Token (db : GetTokenCall) : option types.Token * option string :=
  let (token, err) := loadToken db in
  match err with
  | Some msg => (None, Some msg)
  | None =>
      match token with
      | None => (None, None)
      | Some tok => (Some tok, err)
      end
  end.

(** [MustTokenName]; [idString] is [tokenID.String()].  [t.Name] on a [nil]
    [t] is a nil-pointer dereference, and nothing recovers from it here. *)
Definition MustTokenName (db : GetTokenCall) (idString : string)
  : outcome string :=
  let (t, err) := Token db in
  match err with
  | Some _ => Returns idString
  | None =>
      match t with
      | None => Panics
      | Some tok =>
          if String.eqb (types.Name tok) EmptyString
          then Returns idString
          else Returns (types.Name tok)
      end
  end.

End repository.

Module Proxy.

(** ** Further methods of [Proxy] in [token.go] *)

(** The fields of [types.Token] that [LoadTokenLikesViews] writes. *)
Record TokenStats : Type := mkStats {
  CachedViews : Z;
  CachedLikes : Z;
  LikesUpdate : Z
}.

(** The calls the two refresh functions make, in order. *)
Inductive Call : Type :=
| CallGetTokenViews
| CallGetTokenLikesCount
| CallTokenLikesViewsStore (t : TokenStats).

Section LikesViews.

(** What [p.shared.GetTokenViews] answers with, and its method [Int64]. *)
Variable Views : Type.
Variable Int64 : Views -> Z.

(** What the collaborators answer during one refresh; [now] is
    [time.Now()], [storeAnswer] the error of [TokenLikesViewsStore]. *)
Record Answers : Type := mkAnswers {
  viewsAnswer : result Views;
  likesAnswer : result Z;
  now : Z;
  storeAnswer : option string
}.

(** [LoadTokenLikesViews]: the token after the call, the error returned
    and the calls made. *)
Definition LoadTokenLikesViews (a : Answers) (t : TokenStats)
  : TokenStats * option string * list Call :=
  match viewsAnswer a with
  | Err msg => (t, Some msg, [CallGetTokenViews])
  | Ok views =>
      match likesAnswer a with
      | Err msg => (t, Some msg, [CallGetTokenViews; CallGetTokenLikesCount])
      | Ok likes =>
          (mkStats (Int64 views) likes (now a), None,
           [CallGetTokenViews; CallGetTokenLikesCount])
      end
  end.

(** [TokenLikesViewsRefresh]. *)
Definition TokenLikesViewsRefresh (a : Answers) (t : TokenStats)
  : TokenStats * option string * list Call :=
  let '(t', err, calls) := LoadTokenLikesViews a t in
  match err with
  | Some msg => (t', Some msg, calls)
  | None => (t', storeAnswer a, calls ++ [CallTokenLikesViewsStore t'])
  end.

End LikesViews.

Section Thumbnail.

Variable Image : Type.

(** The [interface{}] that [callGroup.Do] hands back: nothing, or a
    pointer to an image. *)
Inductive iface : Type :=
| INil
| IImage (p : option Image).

(** The function [GetImageThumbnail] hands to [callGroup.Do], given what
    [p.GetImage] returned and what [createThumbnail] does. *)
Definition makeThumbnail (imgUri : string)
  (getImage : option Image * option string)
  (createThumbnail : Image -> result Image) : iface * option string :=
  let (image, err) := getImage in
  match err with
  | Some msg =>
      (INil, Some ("image loading failed for " ++ imgUri ++ "; " ++ msg)%string)
  | None =>
      match image with
      | None => (INil, Some ("image " ++ imgUri ++ " not found")%string)
      | Some img =>
          match createThumbnail img with
          | Err msg => (INil, Some ("thumbnail creation failed; " ++ msg)%string)
          | Ok thumb => (IImage (Some thumb), None)
          end
      end
  end.

(** [GetImageThumbnail]: the type assertion of [data] to an image pointer
    panics on an interface that holds nothing; a panic of [GetImage] is
    not recovered either. *)
Definition GetImageThumbnail (imgUri : string)
  (getImage : repository.outcome (option Image * option string))
  (createThumbnail : Image -> result Image)
  : repository.outcome (option Image * option string) :=
  match getImage with
  | repository.Panics => repository.Panics
  | repository.Returns answer =>
      let (data, err) := makeThumbnail imgUri answer createThumbnail in
      match data with
      | INil => repository.Panics
      | IImage p => repository.Returns (p, err)
      end
  end.

End Thumbnail.

Section Royalty.

Variable Address : Type.

(** The Go conversion [int32(x)] of an integer. *)
Definition int32 (z : Z) : Z := (z + 2 ^ 31) mod 2 ^ 32 - 2 ^ 31.

Record royaltyRecipient : Type := mkRoyaltyRecipient {
  royalty : Z;
  recipient : Address
}.

(** [GetTokenRoyalty], given the [uint16] royalty, the recipient and the
    error that [p.rpc.GetTokenRoyalty] returns. *)
Definition GetTokenRoyalty (rpc : Z * Address * option string)
  : Z * Address * option string :=
  let '(r, a, err) := rpc in
  let rr := mkRoyaltyRecipient r a in
  (int32 (royalty rr), recipient rr, err).

End Royalty.

(** Whether a call is the one that stores the token. *)
Definition isStore (c : Call) : bool :=
  match c with
  | CallTokenLikesViewsStore _ => true
  | _ => false
  end.

(** ** [Token] and [MustTokenName] on their pointer arguments

    A pointer argument is [None] when it is [nil], and [Some s] when it
    points to a value whose [String()] is [s]. *)

(** [Token]: building the key calls [contract.String()] and then
    [tokenId.String()], each of which panics on a nil pointer, before
    [GetToken] is called. *)
Definition Token (contract tokenId : option string)
  (db : repository.GetTokenCall)
  : repository.outcome (option types.Token * option string) :=
  match contract with
  | None => repository.Panics
  | Some _ =>
      match tokenId with
      | None => repository.Panics
      | Some _ => repository.Returns (repository.Token db)
      end
  end.

(** [tokenID.String()]. *)
Definition idString (tokenID : option string) : repository.outcome string :=
  match tokenID with
  | None => repository.Panics
  | Some s => repository.Returns s
  end.

(** [MustTokenName]. *)
Definition MustTokenName (contract tokenID : option string)
  (db : repository.GetTokenCall) : repository.outcome string :=
  match Token contract tokenID db with
  | repository.Panics => repository.Panics
  | repository.Returns (t, err) =>
      match err with
      | Some _ => idString tokenID
      | None =>
          match t with
          | None => repository.Panics
          | Some tok =>
              if String.eqb (types.Name tok) EmptyString
              then idString tokenID
              else repository.Returns (types.Name tok)
          end
      end
  end.

End Proxy.

(** ** Vocabulary of the properties *)

Import svc.

(** A collaborator's answer, when it is one, is a [uint64]. *)
Definition uint64_result (r : result Z) : Prop :=
  match r with
  | Ok z => uint64 z
  | Err _ => True
  end.

Definition wfEvent (e : Event) : Prop :=
  match e with
  | EvTgTick h => uint64_result h
  | EvObserved bid => uint64 bid
  | _ => True
  end.

(** The [uint64] values an iteration reads are in range. *)
Definition wfInput (i : Input) : Prop :=
  wfEvent (ev i) /\ uint64_result (head i).

(** [PullHeader] answers with the header of the height it was asked for,
    when it answers. *)
Definition faithful (i : Input) : Prop :=
  forall h hdr, pullHeader i h = Ok hdr -> Number hdr = h.

(** The scanner states a run can be in between two iterations. *)
Inductive reachable : blkScanner -> Prop :=
| reach_initial : forall lastSeen hd,
    uint64_result lastSeen -> uint64_result hd ->
    reachable (initial lastSeen hd)
| reach_iteration : forall bs i bs',
    reachable bs -> wfInput i -> iteration i bs = Some bs' ->
    reachable bs'.

(** The scanner is [Scanning] when the run starts and after each of its
    iterations: the run is one scanning phase. *)
Fixpoint stayedScanning (ins : list Input) (bs : blkScanner) : bool :=
  ScannerState_eqb (state bs) blkIsScanning &&
  match ins with
  | [] => true
  | i :: rest =>
      match iteration i bs with
      | None => true
      | Some bs' => stayedScanning rest bs'
      end
  end.

(** Every iteration of the run starts with the scanner in state [s]: the
    run is part of one scanning phase, or of one idle phase, up to and
    including the iteration that ends the phase. *)
Fixpoint startsIn (s : ScannerState) (ins : list Input) (bs : blkScanner)
  : bool :=
  match ins with
  | [] => true
  | i :: rest =>
      ScannerState_eqb (state bs) s &&
      match iteration i bs with
      | None => true
      | Some bs' => startsIn s rest bs'
      end
  end.

(** The heights that arrive on [inObservedBlocks] during the iterations. *)
Fixpoint observedHeights (ins : list Input) : list Z :=
  match ins with
  | [] => []
  | i :: rest =>
      match ev i with
      | EvObserved bid => bid :: observedHeights rest
      | _ => observedHeights rest
      end
  end.

(** [a; a+1; ...; a+n-1]. *)
Fixpoint consecutive (a : Z) (n : nat) : list Z :=
  match n with
  | O => []
  | S k => a :: consecutive (a + 1) k
  end.

(** Each height is below the next one. *)
Fixpoint increasing (l : list Z) : Prop :=
  match l with
  | [] => True
  | x :: rest =>
      match rest with
      | [] => True
      | y :: _ => x < y /\ increasing rest
      end
  end.

(** Each height is the one before it plus one. *)
Fixpoint gapless (l : list Z) : Prop :=
  match l with
  | [] => True
  | x :: rest =>
      match rest with
      | [] => True
      | y :: _ => y = x + 1 /\ gapless rest
      end
  end.

Definition returned (r : RunState) : bool :=
  match r with
  | Looping _ => false
  | Returned _ => true
  end.

(** A [PullHeader] that answers every height, and one that answers none. *)
Definition fetchOk : Z -> result Header := fun n => Ok (mkHeader n).

Definition fetchDown : Z -> result Header :=
  fun _ => Err "header not available".

(** An input of a run in which nothing is ready at the [select], every
    fetch succeeds and every header is taken by the queue, while
    [CurrentHead] would answer [h]. *)
Definition quiet (h : Z) : Input :=
  mkInput EvNone fetchOk RaceOther (Ok h) false.

(** The iterations of a run during which [CurrentHead] keeps answering
    [h], every fetch succeeds with the header asked for, every header is
    taken by the queue and no stop signal is sent. *)
Definition steadyHead (h : Z) (i : Input) : Prop :=
  match ev i with
  | EvStop => False
  | EvTgTick hd => hd = Ok h
  | EvLogTick | EvObserved _ | EvNone => True
  end
  /\ head i = Ok h
  /\ race i = RaceOther
  /\ forall n, exists hdr, pullHeader i n = Ok hdr /\ Number hdr = n.



(** Every head that [CurrentHead] reports during the iteration, at the
    tick and in [checkTarget], is at most [h]. *)
Definition headsAtMost (h : Z) (i : Input) : Prop :=
  match ev i with
  | EvTgTick hd => top hd <= h
  | _ => True
  end
  /\ top (head i) <= h.

(** What a run keeps true of the heights it has sent: they increase, and
    all lie below the cursor. *)
Definition sentBelowCursor (bs : blkScanner) : Prop :=
  uint64 (current bs) /\ uint64 (target bs) /\
  increasing (emitted bs) /\
  Forall (fun h => h < current bs) (emitted bs).

(** The scanner of a run under a constant head [h]: scanning at or below
    [h], with no stop signal pending. *)
Definition scanningBelow (h : Z) (bs : blkScanner) : Prop :=
  state bs = blkIsScanning /\ sigStop bs = false /\ target bs = h /\
  0 <= current bs <= h.

(** ** Concrete runs *)

(** From checkpoint 5 with head 6: one header is sent; a failed head query
    at the tick drops [target] to 0, the re-fetch (8) puts the scanner to
    idle; an observed block 100 moves the cursor; the scan resumes there. *)
Definition gapRun : list Input :=
  [ mkInput EvNone fetchOk RaceOther (Ok 6) false;
    mkInput (EvTgTick (Err "head not available")) fetchOk RaceOther (Ok 8) false;
    mkInput (EvObserved 100) fetchOk RaceOther (Ok 8) false;
    mkInput (EvTgTick (Ok 200)) fetchOk RaceOther (Ok 200) false ].


(** The stop signal arrives during the wait after a failed fetch; at the
    next [select] the head timer is ready as well and is the case taken,
    the fetch now succeeds and the queue has room; then the stop case. *)
Definition stopDuringWaitRun : list Input :=
  [ mkInput EvNone fetchDown RaceStop (Ok 9) false;
    mkInput (EvTgTick (Ok 9)) fetchOk RaceOther (Ok 9) false;
    mkInput EvStop fetchOk RaceOther (Ok 9) false ].

(** The same with the signal arriving while the send is blocked on a full
    queue, which has room again one iteration later. *)
Definition stopDuringSendRun : list Input :=
  [ mkInput EvNone fetchOk RaceStop (Ok 9) false;
    mkInput EvLogTick fetchOk RaceOther (Ok 9) false;
    mkInput EvStop fetchOk RaceOther (Ok 9) false ].



(** An iteration with nothing ready during which [CurrentHead] fails. *)
Definition headDown : Input :=
  mkInput EvNone fetchOk RaceOther (Err "head not available") false.

(** A scanner that has sent nothing yet. *)
Definition scannerAt (s : ScannerState) (cur tgt : Z) : blkScanner :=
  mkScanner s cur tgt false [] [] [] 0.

(** * Properties *)

(** ** Arithmetic of [uint64] *)

Lemma wrap64_range (z : Z) : 0 <= wrap64 z < 2 ^ 64.
Proof. unfold wrap64. apply Z.mod_pos_bound. lia. Qed.

Lemma wrap64_small (z : Z) : uint64 z -> wrap64 z = z.
Proof. unfold uint64, wrap64. intros H. apply Z.mod_small. exact H. Qed.

Lemma wrap64_borrow (z : Z) : - 2 ^ 64 <= z < 0 -> wrap64 z = z + 2 ^ 64.
Proof.
  intros H. unfold wrap64.
  symmetry. apply (Z.mod_unique z (2 ^ 64) (-1) (z + 2 ^ 64)); lia.
Qed.

Lemma wrap64_sub_below (t c : Z) :
  uint64 t -> uint64 c -> t < c -> wrap64 (t - c) = 2 ^ 64 - (c - t).
Proof.
  unfold uint64. intros Ht Hc Hlt.
  rewrite wrap64_borrow; lia.
Qed.

Lemma wrap64_sub_above (t c : Z) :
  uint64 t -> uint64 c -> c <= t -> wrap64 (t - c) = t - c.
Proof.
  unfold uint64. intros Ht Hc Hle. apply wrap64_small. unfold uint64. lia.
Qed.

Lemma uint64_top (h : result Z) : uint64_result h -> uint64 (top h).
Proof. destruct h; simpl; auto. intros _. unfold uint64. lia. Qed.

Lemma uint64_start (l : result Z) : uint64_result l -> uint64 (start l).
Proof.
  destruct l as [lnb|msg]; simpl.
  - destruct (lnb =? 0); auto. unfold uint64, defStartingBlockNumber. lia.
  - intros _. unfold uint64. lia.
Qed.

(** Settle a comparison that linear arithmetic decides. *)
Tactic Notation "cmp_true" uconstr(c) :=
  replace c with true
    by (symmetry;
        first [apply Z.ltb_lt | apply Z.gtb_lt | apply Z.geb_le]; lia).

Tactic Notation "cmp_false" uconstr(c) :=
  replace c with false
    by (symmetry;
        first [apply Z.ltb_ge | rewrite Z.gtb_ltb; apply Z.ltb_ge]; lia).

(** ** The state as an equation on booleans *)

Lemma ScannerState_eqb_eq (a b : ScannerState) :
  ScannerState_eqb a b = true <-> a = b.
Proof. destruct a, b; simpl; split; congruence. Qed.

Lemma scanning_or_idling (s : ScannerState) :
  ScannerState_eqb s blkIsIdling = negb (ScannerState_eqb s blkIsScanning).
Proof. destruct s; reflexivity. Qed.

(** ** What each step leaves alone *)

Lemma notify_fields (l : bool) (bs : blkScanner) :
  state (notify l bs) = state bs /\ current (notify l bs) = current bs /\
  target (notify l bs) = target bs /\ sigStop (notify l bs) = sigStop bs /\
  outBlocks (notify l bs) = outBlocks bs /\ pulled (notify l bs) = pulled bs /\
  mgrClosed (notify l bs) = mgrClosed bs.
Proof. destruct l; simpl; repeat split. Qed.

Lemma checkTarget_frame (i : Input) (bs : blkScanner) :
  current (checkTarget i bs) = current bs /\
  sigStop (checkTarget i bs) = sigStop bs /\
  outBlocks (checkTarget i bs) = outBlocks bs /\
  pulled (checkTarget i bs) = pulled bs /\
  mgrClosed (checkTarget i bs) = mgrClosed bs.
Proof.
  unfold checkTarget.
  destruct (_ && _); [|repeat split].
  cbv zeta. destruct (_ && _); [|repeat split].
  destruct (listening i); simpl; repeat split.
Qed.

Lemma checkIdle_frame (i : Input) (bs : blkScanner) :
  current (checkIdle i bs) = current bs /\
  target (checkIdle i bs) = target bs /\
  sigStop (checkIdle i bs) = sigStop bs /\
  outBlocks (checkIdle i bs) = outBlocks bs /\
  pulled (checkIdle i bs) = pulled bs /\
  mgrClosed (checkIdle i bs) = mgrClosed bs.
Proof.
  unfold checkIdle.
  destruct (negb _); [repeat split|].
  cbv zeta. destruct (_ >? _); [|repeat split].
  destruct (listening i); simpl; repeat split.
Qed.

Lemma scanNext_frame (i : Input) (bs : blkScanner) :
  state (scanNext i bs) = state bs /\
  target (scanNext i bs) = target bs /\
  outStateChange (scanNext i bs) = outStateChange bs /\
  mgrClosed (scanNext i bs) = mgrClosed bs.
Proof.
  unfold scanNext.
  destruct (_ && _); [|repeat split].
  cbv zeta. simpl.
  destruct (pullHeader i (current bs)), (race i); simpl; repeat split.
Qed.

(** ** The two state checks *)

Section Checks.

Variable i : Input.
Variable bs : blkScanner.

Lemma checkTarget_fires :
  state bs = blkIsScanning -> current bs > target bs ->
  target (checkTarget i bs) = top (head i) /\
  state (checkTarget i bs) =
    if wrap64 (top (head i) - current bs) <? blkScannerHysteresis
    then blkIsIdling else blkIsScanning.
Proof.
  intros Hs Hgt. unfold checkTarget.
  rewrite Hs. simpl ScannerState_eqb.
  cmp_true (current bs >? target bs).
  cbv zeta. simpl andb. simpl target. simpl current.
  pose proof (wrap64_range (top (head i) - current bs)) as Hr.
  cmp_true (wrap64 (top (head i) - current bs) >=? 0).
  simpl andb.
  destruct (_ <? _).
  - destruct (notify_fields (listening i)
                (set_state blkIsIdling (set_target (top (head i)) bs)))
      as (-> & _ & -> & _).
    split; reflexivity.
  - simpl. rewrite Hs. split; reflexivity.
Qed.

Lemma checkTarget_skips :
  state bs = blkIsIdling \/ current bs <= target bs ->
  checkTarget i bs = bs.
Proof.
  intros H. unfold checkTarget.
  destruct H as [H|H].
  - rewrite H. reflexivity.
  - cmp_false (current bs >? target bs).
    rewrite andb_false_r. reflexivity.
Qed.

Lemma checkIdle_fires :
  state bs = blkIsIdling ->
  state (checkIdle i bs) =
    if wrap64 (target bs - current bs) >? blkScannerHysteresis
    then blkIsScanning else blkIsIdling.
Proof.
  intros Hs. unfold checkIdle. rewrite Hs. simpl negb. cbv zeta.
  destruct (_ >? _).
  - destruct (notify_fields (listening i) (set_state blkIsScanning bs))
      as (-> & _). reflexivity.
  - exact Hs.
Qed.

Lemma checkIdle_skips : state bs = blkIsScanning -> checkIdle i bs = bs.
Proof. intros Hs. unfold checkIdle. rewrite Hs. reflexivity. Qed.

End Checks.





(** ** The observed-block signal *)

Lemma observe_idle_ahead (bid : Z) (bs : blkScanner) :
  state bs = blkIsIdling -> bid > current bs ->
  observe bid bs = set_current bid bs.
Proof.
  intros Hs Hgt. unfold observe. rewrite Hs. simpl ScannerState_eqb.
  cmp_true (bid >? current bs).
  reflexivity.
Qed.

Lemma observe_idle_behind (bid : Z) (bs : blkScanner) :
  bid <= current bs -> observe bid bs = bs.
Proof.
  intros Hle. unfold observe.
  cmp_false (bid >? current bs).
  rewrite andb_false_r. reflexivity.
Qed.

Lemma observe_scanning (bid : Z) (bs : blkScanner) :
  state bs = blkIsScanning -> observe bid bs = bs.
Proof. intros Hs. unfold observe. rewrite Hs. reflexivity. Qed.

(** C4: when a height [bid] arrives on [inObservedBlocks], the [select]
    sets [current] to [bid] (and nothing else) if the scanner is [Idling]
    and [bid > current]; if [bid <= current], or the scanner is
    [Scanning], the scanner is left as it was. *)
Theorem observed_block_signal (i : Input) (bid : Z) (bs : blkScanner) :
  ev i = EvObserved bid ->
  selectEvent i bs = Some (observe bid bs)
  /\ (state bs = blkIsIdling -> bid > current bs ->
      observe bid bs = set_current bid bs /\ current (observe bid bs) = bid)
  /\ (state bs = blkIsIdling -> bid <= current bs -> observe bid bs = bs)
  /\ (state bs = blkIsScanning -> observe bid bs = bs).
Proof.
  intros Hev. split; [|split; [|split]].
  - unfold selectEvent. rewrite Hev. reflexivity.
  - intros Hs Hgt. rewrite (observe_idle_ahead bid bs Hs Hgt).
    split; reflexivity.
  - intros _ Hle. apply observe_idle_behind. exact Hle.
  - apply observe_scanning.
Qed.

(** An idle scanner at 40 sees block 45, then block 41. *)
Lemma observed_block_signal_witness :
  selectEvent (mkInput (EvObserved 45) fetchOk RaceOther (Ok 44) false)
              (scannerAt blkIsIdling 40 44)
  = Some (scannerAt blkIsIdling 45 44)
  /\ selectEvent (mkInput (EvObserved 41) fetchOk RaceOther (Ok 44) false)
                 (scannerAt blkIsIdling 45 44)
     = Some (scannerAt blkIsIdling 45 44).
Proof.
  split.
  - destruct (observed_block_signal
                (mkInput (EvObserved 45) fetchOk RaceOther (Ok 44) false)
                45 (scannerAt blkIsIdling 40 44) eq_refl)
      as (Hsel & Hset & _).
    rewrite Hsel.
    destruct Hset as [-> _]; [reflexivity | reflexivity | reflexivity].
  - destruct (observed_block_signal
                (mkInput (EvObserved 41) fetchOk RaceOther (Ok 44) false)
                41 (scannerAt blkIsIdling 45 44) eq_refl)
      as (Hsel & _ & Hnop & _).
    rewrite Hsel, Hnop; [reflexivity | reflexivity | vm_compute; discriminate].
Defined.

(** ** The unsigned difference *)

(** The guard [diff >= 0] of [checkTarget] holds for every [uint64]. *)
Lemma diff_guard_vacuous (z : Z) : (wrap64 z >=? 0) = true.
Proof. apply Z.geb_le. apply wrap64_range. Qed.

Lemma diff_wraps (t c : Z) :
  uint64 t -> uint64 c -> t < c -> c - t < 2 ^ 64 - blkScannerHysteresis ->
  wrap64 (t - c) = 2 ^ 64 - (c - t) /\ wrap64 (t - c) > blkScannerHysteresis.
Proof.
  intros Ht Hc Hlt Hfar.
  rewrite (wrap64_sub_below t c Ht Hc Hlt).
  unfold blkScannerHysteresis in *. split; lia.
Qed.

(** C9, as the code has it: the difference is a [uint64]; when [target] is
    below [current] by less than [2^64 - hysteresis] (as it is for every
    height a chain has) it wraps to [2^64 - (current - target)], more than
    the hysteresis, so [checkTarget] leaves the state alone when the
    re-fetched target is that far below [current], and [checkIdle] takes
    an [Idling] scanner back to [Scanning]; a failed head query at the
    tick does so whenever [0 < current < 2^64 - hysteresis]. *)
Theorem unsigned_diff_wraps :
  (forall z, (wrap64 z >=? 0) = true)
  /\ (forall t c, uint64 t -> uint64 c -> t < c ->
        c - t < 2 ^ 64 - blkScannerHysteresis ->
        wrap64 (t - c) = 2 ^ 64 - (c - t) /\
        wrap64 (t - c) > blkScannerHysteresis)
  /\ (forall i bs, uint64 (current bs) -> uint64_result (head i) ->
        top (head i) < current bs ->
        current bs - top (head i) < 2 ^ 64 - blkScannerHysteresis ->
        state (checkTarget i bs) = state bs)
  /\ (forall i bs, uint64 (current bs) -> uint64 (target bs) ->
        state bs = blkIsIdling -> target bs < current bs ->
        current bs - target bs < 2 ^ 64 - blkScannerHysteresis ->
        state (checkIdle i bs) = blkIsScanning)
  /\ (forall i bs msg, ev i = EvTgTick (Err msg) ->
        state bs = blkIsIdling ->
        0 < current bs < 2 ^ 64 - blkScannerHysteresis ->
        exists bs', iteration i bs = Some bs' /\
                    target bs' = 0 /\ state bs' = blkIsScanning).
Proof.
  split; [exact diff_guard_vacuous|].
  split; [exact diff_wraps|].
  split; [|split].
  - intros i bs Hc Hh Hlt Hfar.
    destruct (state bs) eqn:Hs.
    + destruct (Z_gt_le_dec (current bs) (target bs)) as [Hgt|Hle].
      * destruct (checkTarget_fires i bs Hs Hgt) as [_ Hst]. rewrite Hst.
        destruct (diff_wraps (top (head i)) (current bs)
                    (uint64_top _ Hh) Hc Hlt Hfar) as [_ Hbig].
        cmp_false (_ <? _).
        reflexivity.
      * rewrite (checkTarget_skips i bs (or_intror Hle)). exact Hs.
    + rewrite (checkTarget_skips i bs (or_introl Hs)). exact Hs.
  - intros i bs Hc Ht Hs Hlt Hfar.
    rewrite (checkIdle_fires i bs Hs).
    destruct (diff_wraps (target bs) (current bs) Ht Hc Hlt Hfar) as [_ Hbig].
    cmp_true (_ >? _).
    reflexivity.
  - intros i bs msg Hev Hs Hcur.
    unfold iteration, selectEvent. rewrite Hev. simpl top.
    eexists. split; [reflexivity|].
    unfold afterSelect.
    assert (Hscan : scanNext i (set_target 0 bs) = set_target 0 bs).
    { unfold scanNext. simpl. rewrite Hs. reflexivity. }
    rewrite Hscan.
    rewrite (checkTarget_skips i (set_target 0 bs) (or_introl Hs)).
    destruct (checkIdle_frame i (set_target 0 bs)) as (_ & -> & _).
    split; [reflexivity|].
    rewrite (checkIdle_fires i (set_target 0 bs) Hs).
    cbn [target current set_target].
    assert (Hu : uint64 (current bs))
      by (unfold uint64, blkScannerHysteresis in *; lia).
    assert (H0 : uint64 0) by (unfold uint64; lia).
    destruct (diff_wraps 0 (current bs) H0 Hu) as [_ Hbig];
      [lia | unfold blkScannerHysteresis in *; lia |].
    cmp_true (_ >? _).
    reflexivity.
Qed.

(** An idle scanner at 16,005,000 whose head query fails at the tick. *)
Lemma unsigned_diff_wraps_witness :
  wrap64 (0 - 16005000) = 2 ^ 64 - 16005000
  /\ exists bs',
       iteration (mkInput (EvTgTick (Err "head not available")) fetchOk
                          RaceOther (Ok 16005000) false)
                 (scannerAt blkIsIdling 16005000 16005003) = Some bs'
       /\ target bs' = 0 /\ state bs' = blkIsScanning.
Proof.
  destruct unsigned_diff_wraps as (_ & Hwrap & _ & _ & Htick).
  split.
  - destruct (Hwrap 0 16005000) as [H _];
      [vm_compute; split; [discriminate | reflexivity]
      |vm_compute; split; [discriminate | reflexivity]
      |reflexivity | reflexivity |].
    exact H.
  - apply (Htick _ _ "head not available"%string);
      [reflexivity | reflexivity | vm_compute; split; reflexivity].
Defined.

(** C9 as stated fails at the top of the range: with [current = 2^64 - 1]
    and a re-fetched target of 0 the difference wraps to 1, so
    [checkTarget] does switch to [Idling] and [checkIdle] does not switch
    back. *)
Lemma unsigned_diff_wraps_counterexample :
  0 < maxUint64
  /\ wrap64 (0 - maxUint64) = 1
  /\ state (checkTarget headDown (scannerAt blkIsScanning maxUint64 0))
     = blkIsIdling
  /\ state (checkIdle headDown (scannerAt blkIsIdling maxUint64 0))
     = blkIsIdling.
Proof. vm_compute. repeat split. Qed.

(** ** [MustTokenName] *)

Section TokenName.

Import repository.

Variable idString : string.

(** [Token] hands on an error, a token that was found, and [(nil, nil)]
    when none was found or [GetToken] panicked. *)
Lemma Token_cases (db : GetTokenCall) :
  Token db =
    match db with
    | GetTokenReturns _ (Some msg) => (None, Some msg)
    | GetTokenReturns (Some tok) None => (Some tok, None)
    | GetTokenReturns None None => (None, None)
    | GetTokenPanics => (None, None)
    end.
Proof. destruct db as [[tok|] [msg|]|]; reflexivity. Qed.

(** Where the lookup fails or finds a token, [MustTokenName] returns: the
    ID on an error or an empty name, the name otherwise. *)
Lemma MustTokenName_error (t : option types.Token) (msg : string) :
  MustTokenName (GetTokenReturns t (Some msg)) idString = Returns idString.
Proof. destruct t; reflexivity. Qed.

Lemma MustTokenName_found (tok : types.Token) :
  MustTokenName (GetTokenReturns (Some tok) None) idString =
    Returns (if String.eqb (types.Name tok) EmptyString
             then idString else types.Name tok).
Proof.
  unfold MustTokenName. simpl.
  destruct (String.eqb (types.Name tok) EmptyString); reflexivity.
Qed.

(** C10 fails on the code: when the lookup succeeds without a token,
    [Token] returns [(nil, nil)] and [MustTokenName] reads [t.Name]
    through the nil pointer; it panics and returns no string.  The same
    happens when [GetToken] panics and [Token] recovers. *)
Theorem MustTokenName_not_found_panics :
  Token (GetTokenReturns None None) = (None, None)
  /\ MustTokenName (GetTokenReturns None None) idString = Panics
  /\ MustTokenName GetTokenPanics idString = Panics.
Proof. repeat split. Qed.

End TokenName.

(** ** One iteration *)

Lemma emitted_app (hdr : Header) (bs : blkScanner) (l : list Header) :
  outBlocks bs = l ++ [hdr] -> emitted bs = map Number l ++ [Number hdr].
Proof. intros H. unfold emitted. rewrite H, map_app. reflexivity. Qed.

(** [scanNext] either sends nothing and leaves the cursor, or sends the
    header it fetched at [current] and moves the cursor by one. *)
Lemma scanNext_effect (i : Input) (bs : blkScanner) :
  (current (scanNext i bs) = current bs /\
   outBlocks (scanNext i bs) = outBlocks bs)
  \/ (state bs = blkIsScanning /\ current bs < target bs /\
      race i = RaceOther /\
      exists hdr, pullHeader i (current bs) = Ok hdr /\
                  outBlocks (scanNext i bs) = outBlocks bs ++ [hdr] /\
                  current (scanNext i bs) = wrap64 (current bs + 1)).
Proof.
  unfold scanNext.
  destruct (ScannerState_eqb (state bs) blkIsScanning) eqn:Hs;
    [|left; split; reflexivity].
  destruct (current bs <? target bs) eqn:Hlt; [|left; split; reflexivity].
  apply ScannerState_eqb_eq in Hs. apply Z.ltb_lt in Hlt.
  cbv zeta. simpl andb. cbn [current log_pull].
  destruct (pullHeader i (current bs)) as [hdr|msg] eqn:Hp,
           (race i) eqn:Hr;
    try (left; split; reflexivity).
  right. repeat split; try assumption.
  exists hdr. repeat split.
Qed.

(** The calls after the [select] change the cursor and the queue as
    [scanNext] does. *)
Lemma afterSelect_effect (i : Input) (bs : blkScanner) :
  (current (afterSelect i bs) = current bs /\
   outBlocks (afterSelect i bs) = outBlocks bs)
  \/ (state bs = blkIsScanning /\ current bs < target bs /\
      race i = RaceOther /\
      exists hdr, pullHeader i (current bs) = Ok hdr /\
                  outBlocks (afterSelect i bs) = outBlocks bs ++ [hdr] /\
                  current (afterSelect i bs) = wrap64 (current bs + 1)).
Proof.
  unfold afterSelect.
  destruct (checkIdle_frame i (checkTarget i (scanNext i bs)))
    as (-> & _ & _ & -> & _).
  destruct (checkTarget_frame i (scanNext i bs)) as (-> & _ & -> & _).
  apply scanNext_effect.
Qed.

(** The target after the calls is the one before them or the head that
    [checkTarget] fetched. *)
Lemma afterSelect_target (i : Input) (bs : blkScanner) :
  target (afterSelect i bs) = target bs \/
  target (afterSelect i bs) = top (head i).
Proof.
  unfold afterSelect.
  destruct (checkIdle_frame i (checkTarget i (scanNext i bs)))
    as (_ & -> & _).
  destruct (scanNext_frame i bs) as (Hs & Ht & _).
  unfold checkTarget.
  destruct (_ && _); [|left; exact Ht].
  cbv zeta. destruct (_ && _).
  - destruct (notify_fields (listening i)
      (set_state blkIsIdling (set_target (top (head i)) (scanNext i bs))))
      as (_ & _ & -> & _).
    right. reflexivity.
  - right. reflexivity.
Qed.

(** What the [select] does to the scanner when the loop goes on. *)
Lemma selectEvent_effect (i : Input) (bs bs1 : blkScanner) :
  selectEvent i bs = Some bs1 ->
  state bs1 = state bs /\ outBlocks bs1 = outBlocks bs /\
  sigStop bs1 = sigStop bs /\ mgrClosed bs1 = mgrClosed bs /\
  pulled bs1 = pulled bs /\
  (current bs1 = current bs \/
   state bs = blkIsIdling /\
   exists bid, ev i = EvObserved bid /\ bid > current bs /\ current bs1 = bid)
  /\ (target bs1 = target bs \/ exists h, ev i = EvTgTick h /\ target bs1 = top h).
Proof.
  unfold selectEvent.
  destruct (ev i) as [|h| |bid|] eqn:Hev; intros Hsel.
  - discriminate.
  - injection Hsel as <-. simpl. repeat split; auto. right. eauto.
  - injection Hsel as <-. repeat split; auto.
  - injection Hsel as <-. unfold observe.
    destruct (ScannerState_eqb (state bs) blkIsIdling) eqn:Hs;
      [|simpl; repeat split; auto].
    destruct (bid >? current bs) eqn:Hgt; [|simpl; repeat split; auto].
    apply ScannerState_eqb_eq in Hs. apply Z.gtb_lt in Hgt.
    simpl. repeat split; auto.
    right. split; [exact Hs|]. exists bid. repeat split. lia.
  - destruct (sigStop bs) eqn:Hpending; [discriminate|].
    injection Hsel as <-. repeat split; auto.
Qed.

(** The [uint64] fields stay in range. *)
Lemma iteration_uint64 (i : Input) (bs bs' : blkScanner) :
  wfInput i -> uint64 (current bs) -> uint64 (target bs) ->
  iteration i bs = Some bs' ->
  uint64 (current bs') /\ uint64 (target bs').
Proof.
  intros [Hwe Hwh] Hc Ht Hit. unfold iteration in Hit.
  destruct (selectEvent i bs) as [bs1|] eqn:Hsel; [|discriminate].
  injection Hit as <-.
  destruct (selectEvent_effect i bs bs1 Hsel)
    as (_ & _ & _ & _ & _ & Hcur & Htg).
  assert (Hc1 : uint64 (current bs1)).
  { destruct Hcur as [->|(_ & bid & Hev & _ & ->)]; [exact Hc|].
    rewrite Hev in Hwe. exact Hwe. }
  assert (Ht1 : uint64 (target bs1)).
  { destruct Htg as [->|(h & Hev & ->)]; [exact Ht|].
    rewrite Hev in Hwe. apply uint64_top. exact Hwe. }
  split.
  - destruct (afterSelect_effect i bs1)
      as [[-> _]|(_ & Hlt & _ & hdr & _ & _ & ->)]; [exact Hc1|].
    apply wrap64_range.
  - destruct (afterSelect_target i bs1) as [->| ->]; [exact Ht1|].
    apply uint64_top. exact Hwh.
Qed.

Lemma initial_uint64 (lastSeen hd : result Z) :
  uint64_result lastSeen -> uint64_result hd ->
  uint64 (current (initial lastSeen hd)) /\
  uint64 (target (initial lastSeen hd)).
Proof.
  intros Hl Hh. simpl. split; [apply uint64_start | apply uint64_top];
    assumption.
Qed.

Lemma reachable_uint64 (bs : blkScanner) :
  reachable bs -> uint64 (current bs) /\ uint64 (target bs).
Proof.
  induction 1 as [l h Hl Hh|bs i bs' _ [IHc IHt] Hwf Hit].
  - apply initial_uint64; assumption.
  - apply (iteration_uint64 i bs bs'); assumption.
Qed.

(** An iteration that starts in [Scanning] leaves the cursor and the
    queue, or sends the header fetched at [current] and adds one. *)
Lemma scanning_iteration (i : Input) (bs bs' : blkScanner) :
  wfInput i -> uint64 (current bs) -> uint64 (target bs) ->
  state bs = blkIsScanning ->
  iteration i bs = Some bs' ->
  (current bs' = current bs /\ outBlocks bs' = outBlocks bs)
  \/ (exists hdr, pullHeader i (current bs) = Ok hdr /\
                  outBlocks bs' = outBlocks bs ++ [hdr] /\
                  current bs' = current bs + 1).
Proof.
  intros [Hwe Hwh] Hc Ht Hs Hit. unfold iteration in Hit.
  destruct (selectEvent i bs) as [bs1|] eqn:Hsel; [|discriminate].
  injection Hit as <-.
  destruct (selectEvent_effect i bs bs1 Hsel)
    as (Hs1 & Hout & _ & _ & _ & Hcur & Htg).
  assert (Hc1 : current bs1 = current bs).
  { destruct Hcur as [H|(Hidle & _)]; [exact H|congruence]. }
  assert (Ht1 : uint64 (target bs1)).
  { destruct Htg as [->|(h & Hev & ->)]; [exact Ht|].
    rewrite Hev in Hwe. apply uint64_top. exact Hwe. }
  destruct (afterSelect_effect i bs1)
    as [[Hcur' Hout']|(_ & Hlt & _ & hdr & Hp & Hout' & Hcur')].
  - left. split; congruence.
  - right. exists hdr. rewrite <- Hc1, <- Hout. repeat split; try assumption.
    rewrite Hcur'. apply wrap64_small.
    unfold uint64 in *. lia.
Qed.

(** An iteration never moves the cursor back. *)
Lemma iteration_cursor_monotone (i : Input) (bs bs' : blkScanner) :
  wfInput i -> uint64 (current bs) -> uint64 (target bs) ->
  iteration i bs = Some bs' -> current bs <= current bs'.
Proof.
  intros Hwf Hc Ht Hit.
  pose proof Hit as Hit'. unfold iteration in Hit'.
  destruct (selectEvent i bs) as [bs1|] eqn:Hsel; [|discriminate].
  injection Hit' as <-.
  destruct (selectEvent_effect i bs bs1 Hsel)
    as (_ & _ & _ & _ & _ & Hcur & Htg).
  assert (Hc1 : current bs <= current bs1 /\ uint64 (current bs1)).
  { destruct Hwf as [Hwe _].
    destruct Hcur as [->|(_ & bid & Hev & Hgt & ->)]; [split; [lia | exact Hc]|].
    rewrite Hev in Hwe. split; [lia | exact Hwe]. }
  assert (Ht1 : uint64 (target bs1)).
  { destruct Hwf as [Hwe _].
    destruct Htg as [->|(hd & Hev & ->)]; [exact Ht|].
    rewrite Hev in Hwe. apply uint64_top. exact Hwe. }
  destruct (afterSelect_effect i bs1)
    as [[-> _]|(_ & Hlt & _ & hdr & _ & _ & ->)]; [lia|].
  rewrite wrap64_small; [lia|].
  destruct Hc1 as [_ Hc1]. unfold uint64 in *. lia.
Qed.

(** C8: from a reachable state in [Scanning], an iteration of the loop
    never lowers [current]: it leaves it, together with the queue, or
    sends one header and adds exactly one. *)
Theorem cursor_monotone_while_scanning (i : Input) (bs bs' : blkScanner) :
  reachable bs -> wfInput i ->
  state bs = blkIsScanning ->
  iteration i bs = Some bs' ->
  current bs <= current bs'
  /\ ((current bs' = current bs /\ outBlocks bs' = outBlocks bs)
      \/ (current bs' = current bs + 1 /\
          exists hdr, outBlocks bs' = outBlocks bs ++ [hdr])).
Proof.
  intros Hreach Hwf Hs Hit.
  destruct (reachable_uint64 bs Hreach) as [Hc Ht].
  destruct (scanning_iteration i bs bs' Hwf Hc Ht Hs Hit)
    as [[Hcur Hout]|(hdr & _ & Hout & Hcur)].
  - split; [lia|]. left. split; assumption.
  - split; [lia|]. right. split; [exact Hcur|]. exists hdr. exact Hout.
Qed.

(** From checkpoint 5 with head 9, one quiet iteration sends header 5. *)
Lemma cursor_monotone_while_scanning_witness :
  exists bs',
    iteration (quiet 9) (initial (Ok 5) (Ok 9)) = Some bs'
    /\ current (initial (Ok 5) (Ok 9)) <= current bs'.
Proof.
  eexists. split; [reflexivity|].
  apply (cursor_monotone_while_scanning (quiet 9) (initial (Ok 5) (Ok 9)));
    [ apply reach_initial; (vm_compute; split; [discriminate | reflexivity])
    | vm_compute; repeat split; discriminate
    | reflexivity
    | reflexivity ].
Defined.

(** ** Runs *)

Lemma consecutive_snoc (a : Z) (n : nat) :
  consecutive a n ++ [a + Z.of_nat n] = consecutive a (S n).
Proof.
  revert a. induction n as [|n IH]; intros a.
  - simpl. f_equal. lia.
  - change (a :: (consecutive (a + 1) n ++ [a + Z.of_nat (S n)])
            = a :: consecutive (a + 1) (S n)).
    rewrite <- (IH (a + 1)).
    replace (a + Z.of_nat (S n)) with (a + 1 + Z.of_nat n) by lia.
    reflexivity.
Qed.

Lemma consecutive_length (a : Z) (n : nat) :
  List.length (consecutive a n) = n.
Proof. revert a. induction n; intros a; simpl; [|rewrite IHn]; reflexivity. Qed.

Lemma consecutive_gapless (a : Z) (n : nat) : gapless (consecutive a n).
Proof.
  revert a. induction n as [|n IH]; intros a; [exact I|].
  specialize (IH (a + 1)). destruct n; [exact I|].
  simpl in *. split; [reflexivity | exact IH].
Qed.

Lemma consecutive_bounds (a : Z) (n : nat) (h : Z) :
  In h (consecutive a n) -> a <= h < a + Z.of_nat n.
Proof.
  revert a. induction n as [|n IH]; intros a; simpl; [contradiction|].
  intros [<-|Hin]; [lia|]. apply IH in Hin. lia.
Qed.

Lemma increasing_snoc (l : list Z) (x : Z) :
  increasing l -> Forall (fun h => h < x) l -> increasing (l ++ [x]).
Proof.
  induction l as [|a l IH]; intros Hinc Hall; [exact I|].
  inversion Hall as [|? ? Ha Hl]; subst.
  destruct l as [|b l].
  - simpl. split; [exact Ha | exact I].
  - destruct Hinc as [Hab Hinc]. specialize (IH Hinc Hl).
    simpl in *. split; assumption.
Qed.

Lemma iteration_sentBelowCursor (i : Input) (bs bs' : blkScanner) :
  wfInput i -> faithful i -> sentBelowCursor bs ->
  iteration i bs = Some bs' -> sentBelowCursor bs'.
Proof.
  intros Hwf Hf (Hc & Ht & Hinc & Hbelow) Hit.
  destruct (iteration_uint64 i bs bs' Hwf Hc Ht Hit) as [Hc' Ht'].
  split; [exact Hc'|]. split; [exact Ht'|].
  unfold iteration in Hit.
  destruct (selectEvent i bs) as [bs1|] eqn:Hsel; [|discriminate].
  injection Hit as <-.
  destruct (selectEvent_effect i bs bs1 Hsel)
    as (_ & Hout & _ & _ & _ & Hcur & _).
  assert (Hle : current bs <= current bs1).
  { destruct Hcur as [->|(_ & bid & _ & Hgt & ->)]; lia. }
  assert (Hem : emitted bs1 = emitted bs) by (unfold emitted; congruence).
  assert (Hbelow1 : Forall (fun h => h < current bs1) (emitted bs1)).
  { rewrite Hem. eapply Forall_impl; [|exact Hbelow].
    simpl. intros h Hh. lia. }
  destruct (afterSelect_effect i bs1)
    as [[Hcur' Hout']|(_ & Hlt & _ & hdr & Hp & Hout' & Hcur')].
  - unfold emitted. rewrite Hout', Hcur'. fold (emitted bs1).
    split; [rewrite Hem; exact Hinc | exact Hbelow1].
  - assert (Hstep : current (afterSelect i bs1) = current bs1 + 1).
    { rewrite Hcur'.
      pose proof (wrap64_range (current bs1 + 1)) as Hr.
      destruct (Z_lt_le_dec (current bs1 + 1) (2 ^ 64)) as [Hin|Hover].
      - apply wrap64_small. unfold uint64 in *. lia.
      - exfalso.
        assert (Hbig : 2 ^ 64 <= target bs1) by lia.
        destruct Hwf as [Hwe Hwh].
        destruct (selectEvent_effect i bs bs1 Hsel)
          as (_ & _ & _ & _ & _ & _ & Htg).
        destruct Htg as [Heq|(h & Hev & Heq)].
        + unfold uint64 in Ht. lia.
        + rewrite Hev in Hwe. apply uint64_top in Hwe.
          unfold uint64 in Hwe. lia. }
    rewrite (emitted_app hdr _ _ Hout'). fold (emitted bs1).
    rewrite (Hf _ _ Hp), Hstep, Hem.
    split.
    + apply increasing_snoc; [exact Hinc|]. rewrite <- Hem. exact Hbelow1.
    + apply Forall_app. split.
      * eapply Forall_impl; [|exact Hbelow]. simpl. intros h Hh. lia.
      * constructor; [lia | constructor].
Qed.

Lemma final_returned_fields (bs : blkScanner) :
  emitted (mgr_closed (set_sigStop false bs)) = emitted bs /\
  current (mgr_closed (set_sigStop false bs)) = current bs /\
  target (mgr_closed (set_sigStop false bs)) = target bs /\
  state (mgr_closed (set_sigStop false bs)) = state bs.
Proof. repeat split. Qed.

Lemma run_sentBelowCursor (ins : list Input) :
  forall bs,
    Forall wfInput ins -> Forall faithful ins -> sentBelowCursor bs ->
    sentBelowCursor (final (run ins bs)).
Proof.
  induction ins as [|i rest IH]; intros bs Hwf Hf Hinv; [exact Hinv|].
  inversion Hwf as [|? ? Hwi Hwr]; subst.
  inversion Hf as [|? ? Hfi Hfr]; subst.
  simpl. destruct (iteration i bs) as [bs'|] eqn:Hit.
  - apply IH; try assumption.
    apply (iteration_sentBelowCursor i bs bs'); assumption.
  - exact Hinv.
Qed.

(** One scanning phase sends the heights from its first cursor on, one
    after the other. *)
Lemma scanning_phase_consecutive (ins : list Input) :
  forall bs,
    Forall wfInput ins -> Forall faithful ins ->
    uint64 (current bs) -> uint64 (target bs) ->
    stayedScanning ins bs = true ->
    exists n,
      emitted (final (run ins bs)) = emitted bs ++ consecutive (current bs) n
      /\ current (final (run ins bs)) = current bs + Z.of_nat n.
Proof.
  induction ins as [|i rest IH]; intros bs Hwf Hf Hc Ht Hstay.
  - exists O. simpl. rewrite app_nil_r. split; [reflexivity | lia].
  - inversion Hwf as [|? ? Hwi Hwr]; subst.
    inversion Hf as [|? ? Hfi Hfr]; subst.
    simpl in Hstay. apply andb_true_iff in Hstay as [Hs Hstay].
    apply ScannerState_eqb_eq in Hs.
    simpl. destruct (iteration i bs) as [bs'|] eqn:Hit.
    + destruct (iteration_uint64 i bs bs' Hwi Hc Ht Hit) as [Hc' Ht'].
      destruct (IH bs' Hwr Hfr Hc' Ht' Hstay) as (n & Hem & Hcur).
      destruct (scanning_iteration i bs bs' Hwi Hc Ht Hs Hit)
        as [[Hcur1 Hout1]|(hdr & Hp & Hout1 & Hcur1)].
      * exists n. rewrite Hem, Hcur, Hcur1. unfold emitted.
        rewrite Hout1. split; reflexivity.
      * exists (S n). rewrite Hem, Hcur, Hcur1.
        rewrite (emitted_app hdr _ _ Hout1), (Hfi _ _ Hp).
        fold (emitted bs). rewrite <- app_assoc. simpl.
        split; [reflexivity | lia].
    + exists O. simpl. rewrite app_nil_r. split; [reflexivity | lia].
Qed.

(** ** The heights a run sends *)

(** A run in two parts. *)
Lemma run_app (pre post : list Input) :
  forall bs,
    run (pre ++ post) bs =
      match run pre bs with
      | Looping mid => run post mid
      | Returned bs' => Returned bs'
      end.
Proof.
  induction pre as [|i pre IH]; intros bs; [reflexivity|].
  simpl. destruct (iteration i bs) as [bs'|]; [apply IH | reflexivity].
Qed.

(** A scanning phase, wherever it begins, sends the heights from its
    first cursor on, one after the other. *)
Lemma scanning_starts_consecutive (ins : list Input) :
  forall bs,
    Forall wfInput ins -> Forall faithful ins ->
    uint64 (current bs) -> uint64 (target bs) ->
    startsIn blkIsScanning ins bs = true ->
    exists n,
      emitted (final (run ins bs)) = emitted bs ++ consecutive (current bs) n
      /\ current (final (run ins bs)) = current bs + Z.of_nat n.
Proof.
  induction ins as [|i rest IH]; intros bs Hwf Hf Hc Ht Hstarts.
  - exists O. simpl. rewrite app_nil_r. split; [reflexivity | lia].
  - inversion Hwf as [|? ? Hwi Hwr]; subst.
    inversion Hf as [|? ? Hfi Hfr]; subst.
    simpl in Hstarts. apply andb_true_iff in Hstarts as [Hs Hstarts].
    apply ScannerState_eqb_eq in Hs.
    simpl run. destruct (iteration i bs) as [bs'|] eqn:Hit.
    + destruct (iteration_uint64 i bs bs' Hwi Hc Ht Hit) as [Hc' Ht'].
      destruct (IH bs' Hwr Hfr Hc' Ht' Hstarts) as (n & Hem & Hcur).
      destruct (scanning_iteration i bs bs' Hwi Hc Ht Hs Hit)
        as [[Hcur1 Hout1]|(hdr & Hp & Hout1 & Hcur1)].
      * exists n. rewrite Hem, Hcur, Hcur1. unfold emitted.
        rewrite Hout1. split; reflexivity.
      * exists (S n). rewrite Hem, Hcur, Hcur1.
        rewrite (emitted_app hdr _ _ Hout1), (Hfi _ _ Hp).
        fold (emitted bs). rewrite <- app_assoc. simpl.
        split; [reflexivity | lia].
    + exists O. simpl. rewrite app_nil_r. split; [reflexivity | lia].
Qed.

(** An iteration that starts in [Idling] sends nothing and leaves the
    cursor at the greater of its value and the observed height. *)
Lemma idle_iteration_cursor (i : Input) (bs bs' : blkScanner) :
  state bs = blkIsIdling -> iteration i bs = Some bs' ->
  emitted bs' = emitted bs /\
  current bs' = fold_left Z.max (observedHeights [i]) (current bs).
Proof.
  intros Hs Hit. unfold iteration in Hit.
  destruct (selectEvent i bs) as [bs1|] eqn:Hsel; [|discriminate].
  injection Hit as <-.
  destruct (selectEvent_effect i bs bs1 Hsel) as (Hs1 & Hout & _).
  rewrite Hs in Hs1.
  assert (Hscan : scanNext i bs1 = bs1)
    by (unfold scanNext; rewrite Hs1; reflexivity).
  unfold afterSelect. rewrite Hscan.
  destruct (checkIdle_frame i (checkTarget i bs1))
    as (Hc2 & _ & _ & Ho2 & _).
  destruct (checkTarget_frame i bs1) as (Hc1 & _ & Ho1 & _).
  split; [unfold emitted; congruence|].
  rewrite Hc2, Hc1.
  unfold selectEvent in Hsel. simpl observedHeights.
  destruct (ev i) as [|hd| |bid|]; try discriminate;
    try (injection Hsel as <-; reflexivity).
  - injection Hsel as <-. unfold observe. rewrite Hs. simpl.
    destruct (bid >? current bs) eqn:E.
    + apply Z.gtb_lt in E. simpl. lia.
    + rewrite Z.gtb_ltb in E. apply Z.ltb_ge in E. lia.
  - destruct (sigStop bs); [discriminate | injection Hsel as <-; reflexivity].
Qed.

(** An idle phase sends nothing; while the loop runs, it leaves the
    cursor at the greatest of its value and the observed heights. *)
Lemma idle_phase_cursor (ins : list Input) :
  forall bs,
    startsIn blkIsIdling ins bs = true ->
    emitted (final (run ins bs)) = emitted bs
    /\ (forall bs', run ins bs = Looping bs' ->
          current bs' = fold_left Z.max (observedHeights ins) (current bs)).
Proof.
  induction ins as [|i rest IH]; intros bs Hstarts.
  - split; [reflexivity|]. intros bs' H. injection H as <-. reflexivity.
  - simpl in Hstarts. apply andb_true_iff in Hstarts as [Hs Hstarts].
    apply ScannerState_eqb_eq in Hs.
    simpl run. destruct (iteration i bs) as [bs1|] eqn:Hit.
    + destruct (idle_iteration_cursor i bs bs1 Hs Hit) as [Hem Hcur].
      destruct (IH bs1 Hstarts) as [Hem' Hcur'].
      split; [congruence|].
      intros bs' Hrun. rewrite (Hcur' bs' Hrun), Hcur.
      simpl observedHeights.
      destruct (ev i); reflexivity.
    + split; [reflexivity | intros bs' H; discriminate H].
Qed.

(** C1, as the code has it: when [PullHeader] answers with the header of
    the height asked for, the heights sent on [outBlocks] are strictly
    increasing.  The run starts in [Scanning] with the cursor on the
    resolved checkpoint.  Every scanning phase, wherever the run has got
    to, sends the consecutive heights from the cursor it starts with and
    leaves the cursor behind the last one; so the first phase starts at
    the checkpoint, without gaps.  Every idle phase sends nothing and
    leaves the cursor at the greatest of its value and the observed
    heights, which is where the next scanning phase resumes.  Phases
    follow one another as the parts of a run do. *)
Theorem emitted_heights_in_order :
  (forall lastSeen hd ins,
     uint64_result lastSeen -> uint64_result hd ->
     Forall wfInput ins -> Forall faithful ins ->
     increasing (emitted (final (run ins (initial lastSeen hd)))))
  /\ (forall lastSeen hd,
        state (initial lastSeen hd) = blkIsScanning /\
        current (initial lastSeen hd) = start lastSeen /\
        emitted (initial lastSeen hd) = [])
  /\ (forall bs ins,
        uint64 (current bs) -> uint64 (target bs) ->
        Forall wfInput ins -> Forall faithful ins ->
        startsIn blkIsScanning ins bs = true ->
        exists n,
          emitted (final (run ins bs))
            = emitted bs ++ consecutive (current bs) n
          /\ current (final (run ins bs)) = current bs + Z.of_nat n)
  /\ (forall bs ins,
        startsIn blkIsIdling ins bs = true ->
        emitted (final (run ins bs)) = emitted bs
        /\ (forall bs', run ins bs = Looping bs' ->
              current bs' = fold_left Z.max (observedHeights ins) (current bs)))
  /\ (forall pre post bs,
        run (pre ++ post) bs =
          match run pre bs with
          | Looping mid => run post mid
          | Returned bs' => Returned bs'
          end)
  /\ (forall lastSeen hd ins,
        uint64_result lastSeen -> uint64_result hd ->
        Forall wfInput ins -> Forall faithful ins ->
        stayedScanning ins (initial lastSeen hd) = true ->
        gapless (emitted (final (run ins (initial lastSeen hd)))) /\
        emitted (final (run ins (initial lastSeen hd)))
          = consecutive (start lastSeen)
              (List.length (emitted (final (run ins (initial lastSeen hd)))))).
Proof.
  split; [|split; [|split; [|split; [|split]]]].
  - intros lastSeen hd ins Hl Hh Hwf Hf.
    destruct (initial_uint64 lastSeen hd Hl Hh) as [Hc Ht].
    apply (run_sentBelowCursor ins (initial lastSeen hd) Hwf Hf).
    repeat split; try apply Hc; try apply Ht. constructor.
  - intros lastSeen hd. repeat split.
  - intros bs ins Hc Ht Hwf Hf Hstarts.
    apply scanning_starts_consecutive; assumption.
  - intros bs ins Hstarts. apply idle_phase_cursor. exact Hstarts.
  - intros pre post bs. apply run_app.
  - intros lastSeen hd ins Hl Hh Hwf Hf Hstay.
    destruct (initial_uint64 lastSeen hd Hl Hh) as [Hc Ht].
    destruct (scanning_phase_consecutive ins (initial lastSeen hd)
                Hwf Hf Hc Ht Hstay) as (n & Hem & _).
    change (emitted (initial lastSeen hd)) with (@nil Z) in Hem.
    change (current (initial lastSeen hd)) with (start lastSeen) in Hem.
    simpl app in Hem. rewrite Hem.
    split; [apply consecutive_gapless|].
    rewrite consecutive_length. reflexivity.
Qed.

(** The run that idles in between, phase by phase: two iterations that
    start in [Scanning] send 5; the iteration that starts in [Idling]
    takes the observed block 100; the scan resumes there and sends 100. *)
Lemma emitted_heights_in_order_witness :
  increasing (emitted (final (run gapRun (initial (Ok 5) (Ok 6)))))
  /\ (exists n,
        emitted (final (run (firstn 2 gapRun) (initial (Ok 5) (Ok 6))))
        = consecutive 5 n)
  /\ current (final (run (firstn 3 gapRun) (initial (Ok 5) (Ok 6)))) = 100
  /\ (exists n,
        emitted (final (run gapRun (initial (Ok 5) (Ok 6))))
        = [5] ++ consecutive 100 n).
Proof.
  destruct emitted_heights_in_order
    as (Hinc & _ & Hscan & Hidle & _).
  assert (Hu : forall z, (0 <=? z) && (z <? 2 ^ 64) = true -> uint64 z).
  { intros z H. apply andb_true_iff in H as [H1 H2].
    apply Z.leb_le in H1. apply Z.ltb_lt in H2. split; assumption. }
  assert (Hwf : forall l, incl l gapRun -> Forall wfInput l).
  { intros l Hl. apply Forall_forall. intros i Hi. apply Hl in Hi.
    simpl in Hi. destruct Hi as [<-|[<-|[<-|[<-|[]]]]];
      repeat split; simpl; unfold uint64; lia. }
  assert (Hf : forall l, incl l gapRun -> Forall faithful l).
  { intros l Hl. apply Forall_forall. intros i Hi. apply Hl in Hi.
    simpl in Hi. destruct Hi as [<-|[<-|[<-|[<-|[]]]]];
      intros h hdr H; injection H as <-; reflexivity. }
  assert (Hfirst : incl (firstn 2 gapRun) gapRun)
    by (intros i Hi; simpl in *; tauto).
  assert (Hlast : incl (skipn 3 gapRun) gapRun)
    by (intros i Hi; simpl in *; tauto).
  split; [|split; [|split]].
  - apply (Hinc (Ok 5) (Ok 6) gapRun (Hu 5 eq_refl) (Hu 6 eq_refl)
             (Hwf _ (incl_refl _)) (Hf _ (incl_refl _))).
  - destruct (Hscan (initial (Ok 5) (Ok 6)) (firstn 2 gapRun)
                (Hu 5 eq_refl) (Hu 6 eq_refl)
                (Hwf _ Hfirst) (Hf _ Hfirst) eq_refl)
      as (n & Hem & _).
    exists n. exact Hem.
  - destruct (Hidle (final (run (firstn 2 gapRun) (initial (Ok 5) (Ok 6))))
                [nth 2 gapRun headDown] eq_refl) as [_ Hcur].
    exact (Hcur _ eq_refl).
  - destruct (Hscan (final (run (firstn 3 gapRun) (initial (Ok 5) (Ok 6))))
                (skipn 3 gapRun) (Hu 100 eq_refl) (Hu 8 eq_refl)
                (Hwf _ Hlast) (Hf _ Hlast) eq_refl)
      as (n & Hem & _).
    exists n. exact Hem.
Defined.

(** C1 as stated fails on a run that idles in between: every fetch of
    [gapRun] succeeds, and the run sends 5 and then 100. *)
Lemma emitted_heights_in_order_counterexample :
  Forall (fun i => pullHeader i = fetchOk) gapRun
  /\ emitted (final (run gapRun (initial (Ok 5) (Ok 6)))) = [5; 100]
  /\ ~ gapless [5; 100].
Proof.
  split; [repeat constructor|].
  split; [reflexivity|].
  simpl. intros [H _]. discriminate H.
Qed.

(** ** Initialization *)





(** ** A head that stands still *)

Section SteadyHead.

Variable h : Z.
Hypothesis h_uint64 : uint64 h.

Lemma steady_afterSelect (i : Input) (bs : blkScanner) :
  steadyHead h i -> scanningBelow h bs ->
  scanningBelow h (afterSelect i bs)
  /\ ((current bs < h /\ current (afterSelect i bs) = current bs + 1 /\
       emitted (afterSelect i bs) = emitted bs ++ [current bs])
      \/ (current bs = h /\ current (afterSelect i bs) = h /\
          emitted (afterSelect i bs) = emitted bs)).
Proof.
  intros (_ & Hhead & Hrace & Hpull) (Hs & Hstop & Ht & Hc).
  unfold afterSelect.
  destruct (Z_lt_le_dec (current bs) h) as [Hlt|Hge].
  - destruct (Hpull (current bs)) as (hdr & Hp & Hn).
    assert (Hscan : scanNext i bs =
                    set_current (current bs + 1)
                      (send_outBlocks hdr (log_pull (current bs) bs))).
    { unfold scanNext. rewrite Hs, Ht. simpl ScannerState_eqb.
      cmp_true (current bs <? h).
      cbv zeta. simpl andb. cbn [current log_pull].
      rewrite Hp, Hrace. rewrite wrap64_small; [reflexivity|].
      unfold uint64 in *. lia. }
    rewrite Hscan.
    rewrite checkTarget_skips by (right; simpl; lia).
    rewrite checkIdle_skips by exact Hs.
    split.
    + repeat split; simpl; try assumption; lia.
    + left. split; [exact Hlt|]. split; [reflexivity|].
      unfold emitted. simpl. rewrite map_app. simpl. rewrite Hn. reflexivity.
  - assert (Hscan : scanNext i bs = bs).
    { unfold scanNext. rewrite Ht.
      cmp_false (current bs <? h).
      rewrite andb_false_r. reflexivity. }
    rewrite Hscan.
    rewrite checkTarget_skips by (right; lia).
    rewrite checkIdle_skips by exact Hs.
    split; [repeat split; try assumption; lia|].
    right. repeat split; lia.
Qed.

Lemma steady_select (i : Input) (bs : blkScanner) :
  steadyHead h i -> scanningBelow h bs ->
  exists bs1, selectEvent i bs = Some bs1 /\ scanningBelow h bs1 /\
              current bs1 = current bs /\ emitted bs1 = emitted bs.
Proof.
  intros (Hev & _) (Hs & Hstop & Ht & Hc).
  unfold selectEvent.
  destruct (ev i) as [|hd| |bid|].
  - contradiction.
  - subst hd. eexists. split; [reflexivity|].
    repeat split; simpl; try assumption; lia.
  - exists bs. repeat split; try assumption; lia.
  - exists bs. rewrite (observe_scanning bid bs Hs).
    repeat split; try assumption; lia.
  - rewrite Hstop. exists bs. repeat split; try assumption; lia.
Qed.

(** Under a constant head the run keeps looping, sends the heights from
    the cursor up to [h - 1] and rests with the cursor on [h]. *)
Lemma steady_run (ins : list Input) :
  forall bs,
    Forall (steadyHead h) ins -> scanningBelow h bs ->
    exists bs',
      run ins bs = Looping bs' /\ scanningBelow h bs' /\
      current bs' = Z.min h (current bs + Z.of_nat (List.length ins)) /\
      emitted bs' =
        emitted bs ++ consecutive (current bs)
                                  (Z.to_nat (current bs' - current bs)).
Proof.
  induction ins as [|i rest IH]; intros bs Hall Hbs.
  - exists bs. split; [reflexivity|]. split; [exact Hbs|].
    destruct Hbs as (_ & _ & _ & Hc).
    simpl List.length. simpl Z.of_nat.
    replace (Z.min h (current bs + 0)) with (current bs) by lia.
    split; [reflexivity|].
    rewrite Z.sub_diag. simpl. rewrite app_nil_r. reflexivity.
  - inversion Hall as [|? ? Hi Hrest]; subst.
    destruct (steady_select i bs Hi Hbs) as (bs1 & Hsel & Hbs1 & Hc1 & He1).
    destruct (steady_afterSelect i bs1 Hi Hbs1) as [Hbs2 Hstep].
    destruct (IH (afterSelect i bs1) Hrest Hbs2)
      as (bs' & Hrun & Hbs' & Hcur & Hem).
    exists bs'. simpl run. unfold iteration. rewrite Hsel.
    split; [exact Hrun|]. split; [exact Hbs'|].
    destruct Hbs as (_ & _ & _ & Hc). rewrite Hc1 in Hstep.
    destruct Hstep as [(Hlt & Hnext & Hsent)|(Heq & Hnext & Hsent)].
    + rewrite Hnext in Hcur, Hem. rewrite Hsent, He1 in Hem.
      assert (Hcur' : current bs' =
                Z.min h (current bs + Z.of_nat (List.length (i :: rest))))
        by (rewrite Hcur; simpl List.length; lia).
      split; [exact Hcur'|].
      rewrite Hem, <- app_assoc. f_equal.
      replace (Z.to_nat (current bs' - current bs))
        with (S (Z.to_nat (current bs' - (current bs + 1)))) by lia.
      reflexivity.
    + rewrite Hnext in Hcur, Hem. rewrite Hsent, He1 in Hem.
      assert (Hcur' : current bs' =
                Z.min h (current bs + Z.of_nat (List.length (i :: rest))))
        by (rewrite Hcur; simpl List.length; lia).
      split; [exact Hcur'|].
      rewrite Heq. exact Hem.
Qed.

End SteadyHead.

(** C2, as the code has it: with checkpoint 16,005,000 and a head that
    stays at 16,005,003, three or more iterations send exactly the heights
    16,005,000 through 16,005,002; the cursor then rests on 16,005,003,
    equal to the target, and the run keeps looping. *)
Theorem scan_to_constant_head (ins : list Input) :
  Forall (steadyHead 16005003) ins -> (3 <= List.length ins)%nat ->
  exists bs,
    run ins (initial (Ok 16005000) (Ok 16005003)) = Looping bs
    /\ emitted bs = [16005000; 16005001; 16005002]
    /\ current bs = 16005003
    /\ target bs = 16005003.
Proof.
  intros Hall Hlen.
  assert (Hu : uint64 16005003) by (unfold uint64; lia).
  assert (Hinit : scanningBelow 16005003 (initial (Ok 16005000) (Ok 16005003))).
  { repeat split; simpl; lia. }
  destruct (steady_run 16005003 Hu ins _ Hall Hinit)
    as (bs & Hrun & (_ & _ & Ht & _) & Hcur & Hem).
  exists bs. split; [exact Hrun|].
  change (current (initial (Ok 16005000) (Ok 16005003))) with 16005000 in *.
  assert (Hc : current bs = 16005003) by lia.
  rewrite Hc in Hem.
  split; [exact Hem|]. split; [exact Hc | exact Ht].
Qed.

(** Five quiet iterations. *)
Lemma scan_to_constant_head_witness :
  exists bs,
    run (repeat (quiet 16005003) 5) (initial (Ok 16005000) (Ok 16005003))
    = Looping bs
    /\ emitted bs = [16005000; 16005001; 16005002]
    /\ current bs = 16005003
    /\ target bs = 16005003.
Proof.
  apply (scan_to_constant_head (repeat (quiet 16005003) 5)).
  - repeat constructor; intros n; exists (mkHeader n); split; reflexivity.
  - simpl. lia.
Defined.

(** C2 as stated fails: ten quiet iterations send 16,005,000 through
    16,005,002 and leave the scanner in [Scanning]; and no run under that
    constant head sends 16,005,003 or reaches [Idling]. *)
Lemma scan_to_constant_head_counterexample :
  emitted (final (run (repeat (quiet 16005003) 10)
                      (initial (Ok 16005000) (Ok 16005003))))
  = [16005000; 16005001; 16005002]
  /\ state (final (run (repeat (quiet 16005003) 10)
                       (initial (Ok 16005000) (Ok 16005003))))
     = blkIsScanning
  /\ ~ (exists ins,
          Forall (steadyHead 16005003) ins /\
          let bs := final (run ins (initial (Ok 16005000) (Ok 16005003))) in
          In 16005003 (emitted bs) \/ state bs = blkIsIdling).
Proof.
  split; [reflexivity|]. split; [reflexivity|].
  intros (ins & Hall & Hbad).
  assert (Hu : uint64 16005003) by (unfold uint64; lia).
  assert (Hinit : scanningBelow 16005003 (initial (Ok 16005000) (Ok 16005003))).
  { repeat split; simpl; lia. }
  destruct (steady_run 16005003 Hu ins _ Hall Hinit)
    as (bs & Hrun & (Hs & _ & _ & Hc) & _ & Hem).
  rewrite Hrun in Hbad. simpl in Hbad.
  destruct Hbad as [Hin|Hidle]; [|congruence].
  rewrite Hem in Hin. simpl in Hin.
  apply consecutive_bounds in Hin.
  change (current (initial (Ok 16005000) (Ok 16005003))) with 16005000 in *.
  lia.
Qed.

(** ** A fetch that fails *)













(** ** The stop signal *)

Lemma afterSelect_frame (i : Input) (bs : blkScanner) :
  mgrClosed (afterSelect i bs) = mgrClosed bs /\
  sigStop (afterSelect i bs) = sigStop (scanNext i bs) /\
  outBlocks (afterSelect i bs) = outBlocks (scanNext i bs).
Proof.
  unfold afterSelect.
  destruct (checkIdle_frame i (checkTarget i (scanNext i bs)))
    as (_ & _ & -> & -> & _ & ->).
  destruct (checkTarget_frame i (scanNext i bs)) as (_ & -> & -> & _ & ->).
  destruct (scanNext_frame i bs) as (_ & _ & _ & ->).
  repeat split.
Qed.

Lemma iteration_mgrClosed (i : Input) (bs bs' : blkScanner) :
  iteration i bs = Some bs' -> mgrClosed bs' = mgrClosed bs.
Proof.
  unfold iteration. intros Hit.
  destruct (selectEvent i bs) as [bs1|] eqn:Hsel; [|discriminate].
  injection Hit as <-.
  destruct (selectEvent_effect i bs bs1 Hsel) as (_ & _ & _ & <- & _).
  apply afterSelect_frame.
Qed.

(** [mgr.closed] is called when [run] returns, once, and not before. *)
Lemma run_closed_once (ins : list Input) :
  forall bs,
    mgrClosed (final (run ins bs)) =
      if returned (run ins bs) then S (mgrClosed bs) else mgrClosed bs.
Proof.
  induction ins as [|i rest IH]; intros bs; [reflexivity|].
  simpl. destruct (iteration i bs) as [bs'|] eqn:Hit; [|reflexivity].
  rewrite IH, (iteration_mgrClosed i bs bs' Hit). reflexivity.
Qed.

(** Taking the stop signal in [scanNext] puts it back and sends nothing. *)
Lemma scanNext_stopped (i : Input) (bs : blkScanner) :
  state bs = blkIsScanning -> current bs < target bs -> race i = RaceStop ->
  scanNext i bs = set_sigStop true (log_pull (current bs) bs).
Proof.
  intros Hs Hlt Hrace. unfold scanNext. rewrite Hs. simpl ScannerState_eqb.
  cmp_true (current bs <? target bs).
  cbv zeta. simpl andb. cbn [current log_pull]. rewrite Hrace.
  destruct (pullHeader i (current bs)); reflexivity.
Qed.

(** C7, as the code has it: when the stop signal ends the wait after a
    failed fetch or the blocked send, the signal is put back and that
    call sends no header; the loop returns at the next iteration whose
    [select] takes the stop case, which is the very next one when no timer
    and no observed block is ready, and then no further header was sent;
    [mgr.closed] is called exactly once when the loop returns and not
    while it runs. *)
Theorem stop_signal_rearmed (i : Input) (bs : blkScanner) :
  state bs = blkIsScanning -> current bs < target bs -> race i = RaceStop ->
  (sigStop (scanNext i bs) = true /\
   outBlocks (scanNext i bs) = outBlocks bs /\
   current (scanNext i bs) = current bs)
  /\ (sigStop (afterSelect i bs) = true /\
      outBlocks (afterSelect i bs) = outBlocks bs)
  /\ (forall j rest,
        ev j = EvStop \/ ev j = EvNone ->
        exists bs',
          run (j :: rest) (afterSelect i bs) = Returned bs' /\
          outBlocks bs' = outBlocks bs /\
          sigStop bs' = false /\
          mgrClosed bs' = S (mgrClosed bs))
  /\ (forall ins bs0,
        mgrClosed (final (run ins bs0)) =
          if returned (run ins bs0) then S (mgrClosed bs0) else mgrClosed bs0).
Proof.
  intros Hs Hlt Hrace.
  pose proof (scanNext_stopped i bs Hs Hlt Hrace) as Hscan.
  destruct (afterSelect_frame i bs) as (Hclosed & Hstop & Hout).
  rewrite Hscan in Hstop, Hout. simpl in Hstop, Hout.
  split; [rewrite Hscan; repeat split|].
  split; [split; assumption|].
  split; [|intros ins bs0; apply run_closed_once].
  intros j rest Hev.
  assert (Hit : iteration j (afterSelect i bs) = None).
  { unfold iteration, selectEvent.
    destruct Hev as [-> | ->]; [reflexivity|]. rewrite Hstop. reflexivity. }
  eexists. simpl run. rewrite Hit. split; [reflexivity|].
  simpl. repeat split; [exact Hout | congruence].
Qed.

(** The stop signal arrives during the wait after a failed fetch at 5;
    nothing else is ready at the next [select]. *)
Lemma stop_signal_rearmed_witness :
  exists bs',
    run [mkInput EvNone fetchDown RaceStop (Ok 9) false;
         mkInput EvNone fetchOk RaceOther (Ok 9) false]
        (initial (Ok 5) (Ok 9)) = Returned bs'
    /\ outBlocks bs' = [] /\ sigStop bs' = false /\ mgrClosed bs' = 1%nat.
Proof.
  destruct (stop_signal_rearmed
              (mkInput EvNone fetchDown RaceStop (Ok 9) false)
              (initial (Ok 5) (Ok 9)) eq_refl eq_refl eq_refl)
    as (_ & _ & Hnext & _).
  destruct (Hnext (mkInput EvNone fetchOk RaceOther (Ok 9) false) []
                  (or_intror eq_refl)) as (bs' & Hrun & Hrest).
  exists bs'. split; [exact Hrun | exact Hrest].
Defined.

(** C7 as stated fails when a timer is ready together with the re-armed
    signal and the [select] takes the timer: the loop runs [scanNext]
    again, and a header is sent after the stop signal (5, in both runs)
    before the loop returns. *)
Lemma stop_signal_rearmed_counterexample :
  sigStop (final (run (firstn 1 stopDuringWaitRun) (initial (Ok 5) (Ok 9))))
  = true
  /\ emitted (final (run (firstn 1 stopDuringWaitRun) (initial (Ok 5) (Ok 9))))
     = []
  /\ emitted (final (run stopDuringWaitRun (initial (Ok 5) (Ok 9)))) = [5]
  /\ returned (run stopDuringWaitRun (initial (Ok 5) (Ok 9))) = true
  /\ sigStop (final (run (firstn 1 stopDuringSendRun) (initial (Ok 5) (Ok 9))))
     = true
  /\ emitted (final (run (firstn 1 stopDuringSendRun) (initial (Ok 5) (Ok 9))))
     = []
  /\ emitted (final (run stopDuringSendRun (initial (Ok 5) (Ok 9)))) = [5]
  /\ returned (run stopDuringSendRun (initial (Ok 5) (Ok 9))) = true.
Proof. repeat split. Qed.

(** * Further properties of the scanner *)

(** ** The cursor over a whole run *)

Lemma selectEvent_outStateChange (i : Input) (bs bs1 : blkScanner) :
  selectEvent i bs = Some bs1 -> outStateChange bs1 = outStateChange bs.
Proof.
  unfold selectEvent, observe.
  destruct (ev i) as [|hd| |bid|]; intros Hsel; try discriminate;
    try (injection Hsel as <-; reflexivity).
  - injection Hsel as <-. destruct (_ && _); reflexivity.
  - destruct (sigStop bs); [discriminate | injection Hsel as <-; reflexivity].
Qed.

(** X1: over a whole run, through scanning and idle phases alike,
    [current] never decreases. *)
Theorem cursor_never_decreases (ins : list Input) (bs : blkScanner) :
  Forall wfInput ins -> uint64 (current bs) -> uint64 (target bs) ->
  current bs <= current (final (run ins bs)).
Proof.
  revert bs. induction ins as [|i rest IH]; intros bs Hwf Hc Ht; [simpl; lia|].
  inversion Hwf as [|? ? Hwi Hwr]; subst.
  simpl. destruct (iteration i bs) as [bs'|] eqn:Hit; [|simpl; lia].
  destruct (iteration_uint64 i bs bs' Hwi Hc Ht Hit) as [Hc' Ht'].
  pose proof (iteration_cursor_monotone i bs bs' Hwi Hc Ht Hit).
  specialize (IH bs' Hwr Hc' Ht'). lia.
Qed.

(** The run that idles and resumes at an observed block. *)
Lemma cursor_never_decreases_witness :
  current (initial (Ok 5) (Ok 6))
  <= current (final (run gapRun (initial (Ok 5) (Ok 6)))).
Proof.
  apply (cursor_never_decreases gapRun (initial (Ok 5) (Ok 6))).
  - repeat constructor; simpl; unfold uint64; lia.
  - simpl. unfold uint64. lia.
  - simpl. unfold uint64. lia.
Defined.

(** ** An idle scanner *)

(** X2: an iteration that starts in [Idling] calls [PullHeader] for
    nothing and sends nothing, also when it ends back in [Scanning]; it
    moves the cursor only to an observed block ahead of it. *)
Theorem idle_iteration_sends_nothing (i : Input) (bs bs' : blkScanner) :
  state bs = blkIsIdling -> iteration i bs = Some bs' ->
  outBlocks bs' = outBlocks bs /\ pulled bs' = pulled bs
  /\ (current bs' = current bs
      \/ exists bid, ev i = EvObserved bid /\ bid > current bs /\
                     current bs' = bid).
Proof.
  intros Hs Hit. unfold iteration in Hit.
  destruct (selectEvent i bs) as [bs1|] eqn:Hsel; [|discriminate].
  injection Hit as <-.
  destruct (selectEvent_effect i bs bs1 Hsel)
    as (Hs1 & Hout & _ & _ & Hpulled & Hcur & _).
  rewrite Hs in Hs1.
  assert (Hscan : scanNext i bs1 = bs1)
    by (unfold scanNext; rewrite Hs1; reflexivity).
  unfold afterSelect. rewrite Hscan.
  destruct (checkIdle_frame i (checkTarget i bs1))
    as (-> & _ & _ & -> & -> & _).
  destruct (checkTarget_frame i bs1) as (-> & _ & -> & -> & _).
  split; [exact Hout|]. split; [exact Hpulled|].
  destruct Hcur as [Hcur|(_ & bid & Hev & Hgt & Hcur)]; [left; exact Hcur|].
  right. exists bid. repeat split; assumption.
Qed.

(** An idle scanner at 40 with target 44 sees block 60: it moves there,
    resumes scanning and has still sent nothing. *)
Lemma idle_iteration_sends_nothing_witness :
  exists bs',
    iteration (mkInput (EvObserved 60) fetchOk RaceOther (Ok 44) false)
              (scannerAt blkIsIdling 40 44) = Some bs'
    /\ state bs' = blkIsScanning /\ outBlocks bs' = [] /\ pulled bs' = [].
Proof.
  eexists. split; [reflexivity|]. split; [reflexivity|].
  destruct (idle_iteration_sends_nothing
              (mkInput (EvObserved 60) fetchOk RaceOther (Ok 44) false)
              (scannerAt blkIsIdling 40 44) _ eq_refl eq_refl)
    as (Hout & Hpulled & _).
  split; [exact Hout | exact Hpulled].
Defined.

(** X3: when an iteration takes the scanner from [Scanning] to [Idling]
    and the cursor is at most [2^64 - 10], the target is the head just
    re-fetched and the cursor lies in the band below it:
    [current <= target < current + 10]. *)
Theorem idle_entry_within_band (i : Input) (bs bs' : blkScanner) :
  wfInput i -> uint64 (current bs) -> uint64 (target bs) ->
  state bs = blkIsScanning -> iteration i bs = Some bs' ->
  state bs' = blkIsIdling ->
  current bs' <= 2 ^ 64 - blkScannerHysteresis ->
  target bs' = top (head i)
  /\ current bs' <= target bs' < current bs' + blkScannerHysteresis.
Proof.
  intros Hwf Hc Ht Hs Hit Hidle Hroom.
  destruct (iteration_uint64 i bs bs' Hwf Hc Ht Hit) as [Hc' Ht'].
  unfold iteration in Hit.
  destruct (selectEvent i bs) as [bs1|] eqn:Hsel; [|discriminate].
  injection Hit as <-.
  destruct (selectEvent_effect i bs bs1 Hsel) as (Hs1 & _).
  rewrite Hs in Hs1.
  destruct (scanNext_frame i bs1) as (Hs2 & _). rewrite Hs1 in Hs2.
  unfold afterSelect in *.
  set (bs2 := scanNext i bs1) in *.
  destruct (Z_gt_le_dec (current bs2) (target bs2)) as [Hgt|Hle].
  - destruct (checkTarget_fires i bs2 Hs2 Hgt) as [Htg Hst].
    destruct (checkTarget_frame i bs2) as (Hcur & _).
    destruct (wrap64 (top (head i) - current bs2) <? blkScannerHysteresis)
      eqn:Hband.
    + destruct (checkIdle_frame i (checkTarget i bs2)) as (Hcur' & Htg' & _).
      rewrite Hcur', Hcur in Hc', Hroom |- *. rewrite Htg', Htg in Ht' |- *.
      split; [reflexivity|].
      apply Z.ltb_lt in Hband.
      destruct (Z_lt_le_dec (top (head i)) (current bs2)) as [Hbelow|Habove].
      * rewrite (wrap64_sub_below _ _ Ht' Hc' Hbelow) in Hband.
        unfold uint64, blkScannerHysteresis in *. lia.
      * rewrite (wrap64_sub_above _ _ Ht' Hc' Habove) in Hband. lia.
    + rewrite (checkIdle_skips i _ Hst) in Hidle. congruence.
  - rewrite (checkTarget_skips i bs2 (or_intror Hle)) in Hidle.
    rewrite (checkIdle_skips i bs2 Hs2) in Hidle. congruence.
Qed.

(** Scanning at 7 after the target dropped to 3; the re-fetch answers 12. *)
Lemma idle_entry_within_band_witness :
  exists bs',
    iteration (quiet 12) (scannerAt blkIsScanning 7 3) = Some bs'
    /\ target bs' = 12 /\ current bs' <= target bs' < current bs' + 10.
Proof.
  eexists. split; [reflexivity|].
  apply (idle_entry_within_band (quiet 12) (scannerAt blkIsScanning 7 3)).
  - repeat split; simpl; unfold uint64; lia.
  - simpl. unfold uint64. lia.
  - simpl. unfold uint64. lia.
  - reflexivity.
  - reflexivity.
  - reflexivity.
  - vm_compute. discriminate.
Defined.

(** ** What is sent, against the heads reported *)

Lemma iteration_below_head (h : Z) (i : Input) (bs bs' : blkScanner) :
  headsAtMost h i -> faithful i ->
  target bs <= h -> Forall (fun n => n < h) (emitted bs) ->
  iteration i bs = Some bs' ->
  target bs' <= h /\ Forall (fun n => n < h) (emitted bs').
Proof.
  intros [Hev Hhead] Hf Ht Hall Hit. unfold iteration in Hit.
  destruct (selectEvent i bs) as [bs1|] eqn:Hsel; [|discriminate].
  injection Hit as <-.
  destruct (selectEvent_effect i bs bs1 Hsel)
    as (_ & Hout & _ & _ & _ & _ & Htg).
  assert (Ht1 : target bs1 <= h).
  { destruct Htg as [->|(hd & Hevi & ->)]; [exact Ht|].
    rewrite Hevi in Hev. exact Hev. }
  split.
  - destruct (afterSelect_target i bs1) as [->| ->]; assumption.
  - destruct (afterSelect_effect i bs1)
      as [[_ Hout']|(_ & Hlt & _ & hdr & Hp & Hout' & _)].
    + unfold emitted in *. rewrite Hout', Hout. exact Hall.
    + rewrite (emitted_app hdr _ _ Hout'), Hout. fold (emitted bs).
      apply Forall_app. split; [exact Hall|].
      constructor; [|constructor]. rewrite (Hf _ _ Hp). lia.
Qed.

(** X4: whatever the run does, every height it sends lies strictly below
    the highest head [CurrentHead] has reported; the header at that head
    itself is not sent. *)
Theorem emitted_below_highest_head
  (h : Z) (lastSeen hd : result Z) (ins : list Input) :
  top hd <= h -> Forall (headsAtMost h) ins -> Forall faithful ins ->
  Forall (fun n => n < h) (emitted (final (run ins (initial lastSeen hd)))).
Proof.
  intros Hhd Hheads Hf.
  assert (Hgen : forall bs,
             target bs <= h -> Forall (fun n => n < h) (emitted bs) ->
             Forall (fun n => n < h) (emitted (final (run ins bs)))).
  { induction ins as [|i rest IH]; intros bs Ht Hall; [exact Hall|].
    inversion Hheads as [|? ? Hhi Hhr]; subst.
    inversion Hf as [|? ? Hfi Hfr]; subst.
    simpl. destruct (iteration i bs) as [bs'|] eqn:Hit; [|exact Hall].
    destruct (iteration_below_head h i bs bs' Hhi Hfi Ht Hall Hit)
      as [Ht' Hall'].
    apply IH; assumption. }
  apply Hgen; [exact Hhd | constructor].
Qed.

(** Head 9 throughout: twenty quiet iterations from 5 send nothing at 9
    or above. *)
Lemma emitted_below_highest_head_witness :
  Forall (fun n => n < 9)
    (emitted (final (run (repeat (quiet 9) 20) (initial (Ok 5) (Ok 9))))).
Proof.
  apply (emitted_below_highest_head 9 (Ok 5) (Ok 9) (repeat (quiet 9) 20)).
  - simpl. lia.
  - repeat constructor; simpl; lia.
  - repeat constructor; intros n hdr H; injection H as <-; reflexivity.
Defined.

(** ** [close] *)

Lemma iteration_keeps_stop (i : Input) (bs bs' : blkScanner) :
  sigStop bs = true -> iteration i bs = Some bs' ->
  sigStop bs' = true /\ ev i <> EvStop /\ ev i <> EvNone.
Proof.
  intros Hstop Hit. unfold iteration in Hit.
  destruct (selectEvent i bs) as [bs1|] eqn:Hsel; [|discriminate].
  injection Hit as <-.
  destruct (selectEvent_effect i bs bs1 Hsel) as (_ & _ & Hstop1 & _).
  rewrite Hstop in Hstop1.
  split.
  - destruct (afterSelect_frame i bs1) as (_ & -> & _).
    unfold scanNext. destruct (_ && _); [|exact Hstop1].
    cbv zeta. cbn [current log_pull].
    destruct (pullHeader i (current bs1)), (race i); simpl;
      try reflexivity; exact Hstop1.
  - unfold selectEvent in Hsel.
    destruct (ev i); try discriminate; try (split; discriminate).
    rewrite Hstop in Hsel. discriminate.
Qed.

(** X5: after [close] the stop signal is never lost.  While the loop
    still runs the signal is pending and every [select] so far had a timer
    or an observed block ready; the first [select] with nothing else
    ready, or that takes the stop case, makes [run] return, with the
    signal consumed and [mgr.closed] called once. *)
Theorem close_stops_the_loop (ins : list Input) (bs : blkScanner) :
  match run ins (close bs) with
  | Looping bs' =>
      sigStop bs' = true /\
      Forall (fun i => ev i <> EvStop /\ ev i <> EvNone) ins
  | Returned bs' =>
      sigStop bs' = false /\ mgrClosed bs' = S (mgrClosed bs) /\
      exists i, In i ins /\ (ev i = EvStop \/ ev i = EvNone)
  end.
Proof.
  assert (Hgen : forall bs0, sigStop bs0 = true ->
            match run ins bs0 with
            | Looping bs' =>
                sigStop bs' = true /\
                Forall (fun i => ev i <> EvStop /\ ev i <> EvNone) ins
            | Returned bs' =>
                sigStop bs' = false /\ mgrClosed bs' = S (mgrClosed bs0) /\
                exists i, In i ins /\ (ev i = EvStop \/ ev i = EvNone)
            end).
  { induction ins as [|i rest IH]; intros bs0 Hstop.
    - simpl. split; [exact Hstop | constructor].
    - simpl run. destruct (iteration i bs0) as [bs1|] eqn:Hit.
      + destruct (iteration_keeps_stop i bs0 bs1 Hstop Hit) as (Hstop1 & Hev).
        specialize (IH bs1 Hstop1).
        rewrite (iteration_mgrClosed i bs0 bs1 Hit) in IH.
        destruct (run rest bs1) as [bs'|bs'].
        * destruct IH as [Hs Hall]. split; [exact Hs|].
          constructor; assumption.
        * destruct IH as (Hs & Hc & j & Hin & Hj).
          split; [exact Hs|]. split; [exact Hc|].
          exists j. split; [right; exact Hin | exact Hj].
      + split; [reflexivity|]. split; [reflexivity|].
        exists i. split; [left; reflexivity|].
        unfold iteration, selectEvent in Hit.
        destruct (ev i); try discriminate; auto. }
  apply (Hgen (close bs)). reflexivity.
Qed.

(** ** State-change notifications *)

Lemma notify_outStateChange (l : bool) (bs : blkScanner) :
  outStateChange (notify l bs) =
    outStateChange bs ++ (if l then [state bs] else []).
Proof. destruct l; simpl; [reflexivity | rewrite app_nil_r; reflexivity]. Qed.

Lemma checkTarget_cases (i : Input) (bs : blkScanner) :
  checkTarget i bs = bs
  \/ (state bs = blkIsScanning /\
      checkTarget i bs = set_target (top (head i)) bs)
  \/ (state bs = blkIsScanning /\
      wrap64 (top (head i) - current bs) < blkScannerHysteresis /\
      checkTarget i bs =
        notify (listening i)
               (set_state blkIsIdling (set_target (top (head i)) bs))).
Proof.
  unfold checkTarget.
  destruct (ScannerState_eqb (state bs) blkIsScanning) eqn:Hs;
    [|left; reflexivity].
  apply ScannerState_eqb_eq in Hs.
  destruct (current bs >? target bs); [|left; reflexivity].
  cbv zeta. simpl andb. cbn [target current set_target].
  rewrite diff_guard_vacuous. simpl andb.
  destruct (_ <? _) eqn:Hband.
  - right. right. apply Z.ltb_lt in Hband. repeat split; assumption.
  - right. left. split; [exact Hs | reflexivity].
Qed.

Lemma checkIdle_cases (i : Input) (bs : blkScanner) :
  checkIdle i bs = bs
  \/ (state bs = blkIsIdling /\
      checkIdle i bs = notify (listening i) (set_state blkIsScanning bs)).
Proof.
  unfold checkIdle.
  destruct (ScannerState_eqb (state bs) blkIsIdling) eqn:Hs;
    [|left; reflexivity].
  apply ScannerState_eqb_eq in Hs. simpl negb. cbv zeta.
  destruct (_ >? _); [|left; reflexivity].
  right. split; [exact Hs | reflexivity].
Qed.

(** X6: an iteration changes the state at most once, and it offers a
    value on [outStateChange] only when it has changed the state: the
    listener, if one is receiving, gets exactly the new state; an
    iteration that keeps the state delivers nothing. *)
Theorem state_change_notified (i : Input) (bs bs' : blkScanner) :
  iteration i bs = Some bs' ->
  (state bs' = state bs /\ outStateChange bs' = outStateChange bs)
  \/ (state bs' <> state bs /\
      outStateChange bs' =
        outStateChange bs ++ (if listening i then [state bs'] else [])).
Proof.
  intros Hit. unfold iteration in Hit.
  destruct (selectEvent i bs) as [bs1|] eqn:Hsel; [|discriminate].
  injection Hit as <-.
  destruct (selectEvent_effect i bs bs1 Hsel) as (Hs1 & _).
  rewrite <- (selectEvent_outStateChange i bs bs1 Hsel), <- Hs1.
  destruct (scanNext_frame i bs1) as (Hs2 & _ & Hn2 & _).
  rewrite <- Hs2, <- Hn2. unfold afterSelect.
  set (bs2 := scanNext i bs1).
  destruct (checkTarget_cases i bs2) as [->|[[Hs ->]|(Hs & Hband & ->)]].
  - destruct (checkIdle_cases i bs2) as [->|[Hs ->]].
    + left. split; reflexivity.
    + right. rewrite notify_outStateChange.
      destruct (notify_fields (listening i) (set_state blkIsScanning bs2))
        as (-> & _).
      simpl. rewrite Hs. split; [discriminate | reflexivity].
  - rewrite checkIdle_skips by exact Hs. left. split; reflexivity.
  - set (bs3 := notify (listening i)
                  (set_state blkIsIdling (set_target (top (head i)) bs2))).
    destruct (notify_fields (listening i)
                (set_state blkIsIdling (set_target (top (head i)) bs2)))
      as (Hst3 & Hc3 & Ht3 & _).
    fold bs3 in Hst3, Hc3, Ht3. simpl in Hst3, Hc3, Ht3.
    assert (Hstay : checkIdle i bs3 = bs3).
    { destruct (checkIdle_cases i bs3) as [H|[_ H]]; [exact H|].
      exfalso. unfold checkIdle in H. rewrite Hst3 in H. simpl negb in H.
      cbv zeta in H. rewrite Hc3, Ht3 in H.
      replace (wrap64 (top (head i) - current bs2) >? blkScannerHysteresis)
        with false in H
        by (symmetry; rewrite Z.gtb_ltb; apply Z.ltb_ge; lia).
      assert (Hneq : state bs3 <> blkIsScanning) by (rewrite Hst3; discriminate).
      apply Hneq. rewrite H.
      apply (notify_fields (listening i) (set_state blkIsScanning bs3)). }
    rewrite Hstay. right. rewrite Hst3, Hs.
    split; [discriminate|].
    unfold bs3. rewrite notify_outStateChange. reflexivity.
Qed.

(** The iteration that puts a scanner at 7 to idle, with a listener. *)
Lemma state_change_notified_witness :
  exists bs',
    iteration (mkInput EvNone fetchOk RaceOther (Ok 12) true)
              (scannerAt blkIsScanning 7 3) = Some bs'
    /\ state bs' = blkIsIdling /\ outStateChange bs' = [blkIsIdling].
Proof.
  eexists. split; [reflexivity|].
  destruct (state_change_notified
              (mkInput EvNone fetchOk RaceOther (Ok 12) true)
              (scannerAt blkIsScanning 7 3) _ eq_refl)
    as [[Hsame _]|[_ Hsent]].
  - discriminate Hsame.
  - split; [reflexivity | exact Hsent].
Defined.

(** * Further properties of [token.go] *)

Section TokenLookup.

Import repository.

(** X7: [Token] returns a token only when [GetToken] returned one with a
    nil error; an error of [GetToken] is handed on without the token that
    may have come with it, so a token and an error are never returned
    together. *)
Theorem Token_error_wins (db : GetTokenCall) :
  (forall tok, Token db = (Some tok, None) <->
               db = GetTokenReturns (Some tok) None)
  /\ (forall msg, snd (Token db) = Some msg <->
                  exists t, db = GetTokenReturns t (Some msg))
  /\ (fst (Token db) <> None -> snd (Token db) = None).
Proof.
  rewrite Token_cases.
  destruct db as [[tok|] [msg|]|]; simpl; repeat split;
    try congruence; try discriminate;
    try (intros H; injection H as <-; reflexivity);
    try (intros H; injection H as <-; eexists; reflexivity);
    try (intros [t H]; congruence);
    try (intros H; exfalso; apply H; reflexivity).
Qed.

(** X8: [MustTokenName] panics exactly when the contract or the token ID
    is a nil pointer, or [Token] returns neither a token nor an error,
    that is when [GetToken] found nothing or panicked; in every other
    case it returns a string.  On pointers that are not nil it is the
    function of the lookup alone that the other properties are about. *)
Theorem MustTokenName_panics_exactly
  (contract tokenID : option string) (db : GetTokenCall) :
  (Proxy.MustTokenName contract tokenID db = Panics <->
   contract = None \/ tokenID = None \/
   db = GetTokenReturns None None \/ db = GetTokenPanics)
  /\ (Proxy.MustTokenName contract tokenID db <> Panics ->
      exists s, Proxy.MustTokenName contract tokenID db = Returns s)
  /\ (forall c id,
        Proxy.MustTokenName (Some c) (Some id) db
        = repository.MustTokenName db id)
  /\ (forall c id,
        Proxy.Token (Some c) (Some id) db = Returns (repository.Token db))
  /\ (forall id, Proxy.Token None id db = Panics)
  /\ (forall c, Proxy.Token c None db = Panics).
Proof.
  split; [|split; [|split; [|split; [|split]]]].
  - unfold Proxy.MustTokenName, Proxy.Token.
    destruct contract as [c|], tokenID as [id|];
      try (split; [intros _; auto | reflexivity]).
    rewrite Token_cases.
    destruct db as [[tok|] [msg|]|]; simpl;
      try destruct (String.eqb (types.Name tok) EmptyString);
      (split; [intros H; try discriminate H; auto
              | intros [H|[H|[H|H]]]; try discriminate H; reflexivity]).
  - destruct (Proxy.MustTokenName contract tokenID db) as [s|].
    + intros _. exists s. reflexivity.
    + intros H. exfalso. apply H. reflexivity.
  - intros c id. unfold Proxy.MustTokenName, Proxy.Token, MustTokenName.
    destruct (Token db) as [t err]. destruct err, t; reflexivity.
  - intros c id. reflexivity.
  - intros id. reflexivity.
  - intros c. destruct c; reflexivity.
Qed.

(** X9: with a non-empty ID string, [MustTokenName] never returns the
    empty string. *)
Theorem MustTokenName_never_empty
  (db : GetTokenCall) (idString s : string) :
  idString <> EmptyString ->
  MustTokenName db idString = Returns s ->
  s <> EmptyString.
Proof.
  intros Hid. unfold MustTokenName. rewrite Token_cases.
  destruct db as [[tok|] [msg|]|]; simpl; try discriminate;
    try (intros H; injection H as <-; exact Hid).
  destruct (String.eqb (types.Name tok) EmptyString) eqn:E;
    intros H; injection H as <-; [exact Hid|].
  intros Hempty. rewrite Hempty in E. discriminate.
Qed.

(** A token stored without a name is shown by its ID. *)
Lemma MustTokenName_never_empty_witness :
  MustTokenName (GetTokenReturns (Some (types.mkToken EmptyString)) None) "0x2a"
  = Returns "0x2a"%string
  /\ "0x2a"%string <> EmptyString.
Proof.
  split; [reflexivity|].
  apply (MustTokenName_never_empty
           (GetTokenReturns (Some (types.mkToken EmptyString)) None) "0x2a" "0x2a");
    [discriminate | reflexivity].
Defined.

End TokenLookup.

Section ThumbnailProperties.

Import repository.

Variable Image : Type.
Variable imgUri : string.
Variable createThumbnail : Image -> result Image.

(** X10: [GetImageThumbnail] never returns an error.  It returns the
    thumbnail with a nil error when [GetImage] returned an image without
    error and [createThumbnail] succeeded; in every other case (the image
    failed to load, was not found, the thumbnail could not be made) the
    type assertion on the empty result panics. *)
Theorem GetImageThumbnail_returns_or_panics
  (getImage : outcome (option Image * option string)) :
  (forall img thumb,
     getImage = Returns (Some img, None) ->
     createThumbnail img = Ok thumb ->
     Proxy.GetImageThumbnail Image imgUri getImage createThumbnail
       = Returns (Some thumb, None))
  /\ ((forall img thumb,
         getImage = Returns (Some img, None) ->
         createThumbnail img <> Ok thumb) ->
      Proxy.GetImageThumbnail Image imgUri getImage createThumbnail = Panics)
  /\ (forall p err,
        Proxy.GetImageThumbnail Image imgUri getImage createThumbnail
          = Returns (p, err) ->
        err = None /\
        exists img thumb,
          getImage = Returns (Some img, None) /\
          createThumbnail img = Ok thumb /\ p = Some thumb).
Proof.
  unfold Proxy.GetImageThumbnail, Proxy.makeThumbnail.
  destruct getImage as [[[img|] [msg|]]|]; simpl.
  - split; [intros i t H; discriminate H|].
    split; [reflexivity | intros p err H; discriminate H].
  - destruct (createThumbnail img) as [thumb|msg] eqn:Hc; simpl.
    + split; [|split].
      * intros i t H Hi. injection H as <-. rewrite Hc in Hi.
        injection Hi as <-. reflexivity.
      * intros Hnone. exfalso.
        apply (Hnone img thumb); [reflexivity | exact Hc].
      * intros p err H. injection H as <- <-. split; [reflexivity|].
        exists img, thumb. repeat split. exact Hc.
    + split; [|split; [reflexivity | intros p err H; discriminate H]].
      intros i t H Hi. injection H as <-. rewrite Hc in Hi. discriminate Hi.
  - split; [intros i t H; discriminate H|].
    split; [reflexivity | intros p err H; discriminate H].
  - split; [intros i t H; discriminate H|].
    split; [reflexivity | intros p err H; discriminate H].
  - split; [intros i t H; discriminate H|].
    split; [reflexivity | intros p err H; discriminate H].
Qed.

End ThumbnailProperties.

(** An image that loads and is made into a thumbnail, and one that
    cannot be loaded. *)
Lemma GetImageThumbnail_returns_or_panics_witness :
  Proxy.GetImageThumbnail string "ipfs://image"
    (repository.Returns (Some "image"%string, None))
    (fun img => Ok ("thumb of " ++ img)%string)
  = repository.Returns (Some "thumb of image"%string, None)
  /\ Proxy.GetImageThumbnail string "ipfs://image"
       (repository.Returns (None, Some "timeout"%string))
       (fun img => Ok ("thumb of " ++ img)%string)
     = repository.Panics.
Proof.
  split.
  - destruct (GetImageThumbnail_returns_or_panics string "ipfs://image"
                (fun img => Ok ("thumb of " ++ img)%string)
                (repository.Returns (Some "image"%string, None)))
      as (Hok & _).
    apply (Hok "image"%string "thumb of image"%string); reflexivity.
  - destruct (GetImageThumbnail_returns_or_panics string "ipfs://image"
                (fun img => Ok ("thumb of " ++ img)%string)
                (repository.Returns (None, Some "timeout"%string)))
      as (_ & Hpanic & _).
    apply Hpanic. intros img thumb H. discriminate H.
Defined.

Section LikesViewsProperties.

Variable Views : Type.
Variable Int64 : Views -> Z.

(** X11: [TokenLikesViewsRefresh] stores at most once, and only the
    token it returns.  When the views query fails, the likes are not
    asked for; when either query fails, the token is left as it was,
    nothing is stored and that error is returned; when both succeed, the
    token carries the new counters and the time, it is stored exactly
    once, and the store's error is the result, the token keeping the new
    values also when storing fails. *)
Theorem TokenLikesViewsRefresh_all_or_nothing
  (a : Proxy.Answers Views) (t : Proxy.TokenStats) :
  (forall msg,
     Proxy.viewsAnswer Views a = Err msg ->
     Proxy.TokenLikesViewsRefresh Views Int64 a t
       = (t, Some msg, [Proxy.CallGetTokenViews]))
  /\ (forall views msg,
        Proxy.viewsAnswer Views a = Ok views ->
        Proxy.likesAnswer Views a = Err msg ->
        Proxy.TokenLikesViewsRefresh Views Int64 a t
          = (t, Some msg,
             [Proxy.CallGetTokenViews; Proxy.CallGetTokenLikesCount]))
  /\ (forall views likes,
        Proxy.viewsAnswer Views a = Ok views ->
        Proxy.likesAnswer Views a = Ok likes ->
        Proxy.TokenLikesViewsRefresh Views Int64 a t
          = (Proxy.mkStats (Int64 views) likes (Proxy.now Views a),
             Proxy.storeAnswer Views a,
             [Proxy.CallGetTokenViews; Proxy.CallGetTokenLikesCount;
              Proxy.CallTokenLikesViewsStore
                (Proxy.mkStats (Int64 views) likes (Proxy.now Views a))]))
  /\ (let '(t', err, calls) :=
         Proxy.TokenLikesViewsRefresh Views Int64 a t in
      (List.length (filter Proxy.isStore calls) <= 1)%nat /\
      (forall x, In (Proxy.CallTokenLikesViewsStore x) calls -> x = t') /\
      (filter Proxy.isStore calls = [] -> t' = t /\ err <> None)).
Proof.
  unfold Proxy.TokenLikesViewsRefresh, Proxy.LoadTokenLikesViews.
  destruct (Proxy.viewsAnswer Views a) as [views|msg].
  - destruct (Proxy.likesAnswer Views a) as [likes|msg].
    + split; [intros m H; discriminate H|].
      split; [intros v m _ H; discriminate H|].
      split; [intros v l Hv Hl; injection Hv as <-; injection Hl as <-;
              reflexivity|].
      simpl. split; [lia|]. split.
      * intros x [H|[H|[H|[]]]]; try discriminate H.
        injection H as <-. reflexivity.
      * intros H. discriminate H.
    + split; [intros m H; discriminate H|].
      split; [intros v m Hv Hl; injection Hl as <-; reflexivity|].
      split; [intros v l _ H; discriminate H|].
      simpl. split; [lia|]. split.
      * intros x [H|[H|[]]]; discriminate H.
      * intros _. split; [reflexivity | discriminate].
  - split; [intros m H; injection H as <-; reflexivity|].
    split; [intros v m H; discriminate H|].
    split; [intros v l H; discriminate H|].
    simpl. split; [lia|]. split.
    + intros x [H|[]]; discriminate H.
    + intros _. split; [reflexivity | discriminate].
Qed.

End LikesViewsProperties.

Section RoyaltyProperties.

Variable Address : Type.

(** X12: [GetTokenRoyalty] hands on the royalty, the recipient and the
    error of the RPC call as they are: the conversion of the [uint16]
    royalty to [int32] never changes it, so the royalty returned lies
    between 0 and 65535. *)
Theorem GetTokenRoyalty_passes_through
  (r : Z) (a : Address) (err : option string) :
  0 <= r < 2 ^ 16 ->
  Proxy.GetTokenRoyalty Address (r, a, err) = (r, a, err)
  /\ 0 <= fst (fst (Proxy.GetTokenRoyalty Address (r, a, err))) <= 65535.
Proof.
  intros Hr.
  assert (Hconv : Proxy.int32 r = r).
  { unfold Proxy.int32. rewrite Z.mod_small; lia. }
  unfold Proxy.GetTokenRoyalty. simpl. rewrite Hconv.
  split; [reflexivity | simpl; lia].
Qed.

End RoyaltyProperties.

(** The highest royalty a [uint16] holds, returned beside an error. *)
Lemma GetTokenRoyalty_passes_through_witness :
  Proxy.GetTokenRoyalty string (65535, "0xabc"%string, Some "reverted"%string)
  = (65535, "0xabc"%string, Some "reverted"%string).
Proof.
  apply (GetTokenRoyalty_passes_through string 65535 "0xabc"%string
           (Some "reverted"%string)).
  lia.
Defined.

(** * Catching up with a head that stands still *)

(** X13: while [CurrentHead] keeps answering [h], every fetch succeeds and
    the queue takes every header, a scanner that is [Scanning] at or below
    [h] has, after [h - current] iterations or more, sent exactly the
    heights from [current] to [h - 1], in order, and rests in [Scanning]
    with the cursor on [h]. *)
Theorem scan_reaches_steady_head
  (h : Z) (ins : list Input) (bs : blkScanner) :
  uint64 h -> scanningBelow h bs -> Forall (steadyHead h) ins ->
  h - current bs <= Z.of_nat (List.length ins) ->
  exists bs',
    run ins bs = Looping bs'
    /\ state bs' = blkIsScanning /\ current bs' = h /\ target bs' = h
    /\ emitted bs' =
         emitted bs ++ consecutive (current bs) (Z.to_nat (h - current bs)).
Proof.
  intros Hu Hbs Hall Hlen.
  destruct (steady_run h Hu ins bs Hall Hbs)
    as (bs' & Hrun & (Hs & _ & Ht & _) & Hcur & Hem).
  destruct Hbs as (_ & _ & _ & Hc).
  assert (Hh : current bs' = h) by lia.
  exists bs'. rewrite Hh in Hem. repeat split; assumption.
Qed.

(** From 5 up to a head of 9 in six quiet iterations. *)
Lemma scan_reaches_steady_head_witness :
  exists bs',
    run (repeat (quiet 9) 6) (initial (Ok 5) (Ok 9)) = Looping bs'
    /\ state bs' = blkIsScanning /\ current bs' = 9 /\ target bs' = 9
    /\ emitted bs' = [5; 6; 7; 8].
Proof.
  apply (scan_reaches_steady_head 9 (repeat (quiet 9) 6)
           (initial (Ok 5) (Ok 9))).
  - unfold uint64. lia.
  - repeat split; simpl; lia.
  - repeat constructor; intros n; exists (mkHeader n); split; reflexivity.
  - simpl. lia.
Defined.
